(** * asg-rolling-upgrade: the comparator, the oldest-instance choice,
      instance termination, the readiness probe and the waiting and
      upgrading loops of [script.py]

    The Python of [script.py] is embedded function by function.  Python
    dictionaries are finite maps ([gmap]), an absent key is a failed lookup,
    exceptions are values of [exn] carried by the [result] monad, and the
    objects the script only talks to (the EC2 client, the SSH client, the
    bastion tunnel) are oracles that say how each call ends. *)

From Stdlib Require Import ZArith Ascii String.
From stdpp Require Import base option list sorting gmap strings fin_maps.

Local Open Scope string_scope.
Local Open Scope Z_scope.
Local Open Scope list_scope.

(** ** Exceptions and the [result] monad *)

(** The exception classes that [script.py] raises, catches or lets through. *)
Inductive exn : Type :=
  | KeyError (key : string)          (* d[key] on a dict without key *)
  | AttributeError (msg : string)    (* getattr on a missing attribute, or raised by check_attr *)
  | IndexError                       (* l[0] on an empty list *)
  | IOError (msg : string)           (* raised by connect *)
  | ClientError (code : string)      (* botocore ClientError, response['Error']['Code'] *)
  | OtherError (descr : string).     (* any other exception class *)

Inductive result (A : Type) : Type :=
  | Ok (a : A)
  | Raise (e : exn).
Arguments Ok {A} a.
Arguments Raise {A} e.

#[global] Instance result_ret : MRet result := λ A a, Ok a.
#[global] Instance result_bind : MBind result := λ A B f r,
  match r with
  | Ok a => f a
  | Raise e => Raise e
  end.

#[global] Instance exn_eq_dec : EqDecision exn.
Proof. solve_decision. Defined.

(** [try: body except KeyError: handler]. *)
Definition try_except_KeyError {A} (body : result A) (handler : result A) : result A :=
  match body with
  | Raise (KeyError _) => handler
  | r => r
  end.

(** [d[key]] on a dict: [KeyError] when the key is absent. *)
Definition getitem {V} (d : gmap string V) (key : string) : result V :=
  match d !! key with
  | Some v => Ok v
  | None => Raise (KeyError key)
  end.

(** The message of the [AttributeError] that Python's [getattr] raises; the
    class-name prefix of the real message is left out. *)
Definition no_attribute (name : string) : string :=
  "object has no attribute '" +:+ name +:+ "'".

(** ** Python values that are a string or [None] *)

(** [None] is Python's [None], [Some s] the string [s]. *)
Definition pystr : Type := option string.

(** [v or '']: [None] and the empty string are the falsy values, and both
    give the empty string. *)
Definition or_empty (v : pystr) : string :=
  match v with
  | Some s => s
  | None => ""
  end.

(** ['needle' in haystack] on strings: substring test. *)
Fixpoint str_in (needle haystack : string) : bool :=
  String.prefix needle haystack ||
  match haystack with
  | EmptyString => false
  | String _ rest => str_in needle rest
  end.

(** ** [sorted]

    Python's [sorted] is stable; every stable sort returns the same list, so
    it is modelled by the stable insertion sort: an element is put before
    the first element of the already sorted tail whose key is not smaller. *)
Section sorted.
Context {A K : Type} (le : K → K → bool) (key : A → K).

Fixpoint insert_by (x : A) (l : list A) : list A :=
  match l with
  | [] => [x]
  | y :: l' => if le (key x) (key y) then x :: y :: l' else y :: insert_by x l'
  end.

Fixpoint sorted_by (l : list A) : list A :=
  match l with
  | [] => []
  | x :: l' => insert_by x (sorted_by l')
  end.
End sorted.

(** The order in which [sorted_by] arranges the elements. *)
Definition key_le {A K : Type} (le : K → K → bool) (key : A → K) : relation A :=
  λ x y, le (key x) (key y) = true.

(** [sorted(l)] on a list of strings: byte-wise lexicographic order. *)
Definition sorted (l : list string) : list string := sorted_by String.leb id l.

Definition str_le (s1 s2 : string) : Prop := String.leb s1 s2 = true.

(** ** The instance and the launch configuration *)

(** A boto3 EC2 instance resource.  [security_groups] is a list of dicts
    read with [sg['GroupId']]; the attributes read through [getattr]
    ([image_id], [instance_type], [kernel_id], [key_name],
    [iam_instance_profile]) are kept by name in [attrs], so that an
    attribute can be absent, [None] or a string. *)
Record Instance : Type := {
  instance_id : string;
  launch_time : Z;
  private_ip_address : string;
  security_groups : list (gmap string string);
  attrs : gmap string pystr
}.

#[global] Instance Instance_eq_dec : EqDecision Instance.
Proof. solve_decision. Defined.

(** One entry of [BlockDeviceMappings] in a launch configuration; the [Ebs]
    key is absent on a mapping that is not an EBS volume. *)
Record EbsConfig : Type := {
  ebs_VolumeType : string;
  ebs_VolumeSize : Z;
  ebs_DeleteOnTermination : bool
}.

Record ConfigVolume : Type := {
  DeviceName : string;
  Ebs : option EbsConfig
}.

(** A volume as [describe_volumes] returns it. *)
Record Attachment : Type := {
  Device : string;
  DeleteOnTermination : bool
}.

Record InstanceVolume : Type := {
  VolumeType : string;
  Size : Z;
  Attachments : list Attachment
}.

(** The launch configuration dict.  The entries whose value is a string or
    [None] ([UserData], [ImageId], [InstanceType], [KernelId], [KeyName],
    [IamInstanceProfile]) are in [entries]; [SecurityGroups] and
    [BlockDeviceMappings] hold lists and are [None] when the key is
    absent. *)
Record LaunchConfig : Type := {
  entries : gmap string pystr;
  SecurityGroups : option (list string);
  BlockDeviceMappings : option (list ConfigVolume)
}.

(** [getattr(instance, name)]: [AttributeError] when the attribute is
    absent. *)
Definition getattr (instance : Instance) (name : string) : result pystr :=
  match attrs instance !! name with
  | Some v => Ok v
  | None => Raise (AttributeError (no_attribute name))
  end.

(** [asg_launch_config['SecurityGroups']]. *)
Definition getitem_SecurityGroups (asg_launch_config : LaunchConfig) : result (list string) :=
  match SecurityGroups asg_launch_config with
  | Some l => Ok l
  | None => Raise (KeyError "SecurityGroups")
  end.

(** ** InstanceConfigComparator *)

Definition missing_required (config_attr_name : string) : string :=
  "Launch configuration response was missing required attribute " +:+ config_attr_name.

(** The closure [check_attr] of [compare_to_config]; the list it appends to
    is passed in and returned. *)
Definition check_attr (instance : Instance) (asg_launch_config : LaunchConfig)
    (change_list : list string) (instance_attr_name config_attr_name : string)
    : result (list string) :=
  try_except_KeyError
    (v ← getattr instance instance_attr_name;
     let instance_attr := or_empty v in
     c ← getitem (entries asg_launch_config) config_attr_name;
     let config_attr := or_empty c in
     if bool_decide (config_attr ≠ "") && bool_decide (instance_attr ≠ config_attr)
     then Ok (change_list ++ [config_attr_name])
     else Ok change_list)
    (Raise (AttributeError (missing_required config_attr_name))).

(** [[sg['GroupId'] for sg in instance.security_groups]]. *)
Definition group_ids (instance : Instance) : result (list string) :=
  mapM (λ sg, getitem sg "GroupId") (security_groups instance).

Definition compare_to_config (instance : Instance) (asg_launch_config : LaunchConfig)
    (instance_userdata : pystr) : result (list string) :=
  let change_list := [] in
  config_userdata ← getitem (entries asg_launch_config) "UserData";
  let change_list :=
    if bool_decide (instance_userdata ≠ config_userdata)
    then change_list ++ ["UserData"] else change_list in
  ids ← group_ids instance;
  let instance_sg := sorted ids in
  groups ← getitem_SecurityGroups asg_launch_config;
  let config_sg := sorted groups in
  let change_list :=
    if bool_decide (instance_sg ≠ config_sg)
    then change_list ++ ["SecurityGroups"] else change_list in
  change_list ← check_attr instance asg_launch_config change_list "image_id" "ImageId";
  change_list ← check_attr instance asg_launch_config change_list "instance_type" "InstanceType";
  change_list ← check_attr instance asg_launch_config change_list "kernel_id" "KernelId";
  change_list ← check_attr instance asg_launch_config change_list "key_name" "KeyName";
  let instance_iam_profile :=
    or_empty (default (Some "") (attrs instance !! "iam_instance_profile")) in
  let config_iam_profile :=
    or_empty (default (Some "") (entries asg_launch_config !! "IamInstanceProfile")) in
  let change_list :=
    if bool_decide (instance_iam_profile ≠ config_iam_profile)
    then change_list ++ ["IamInstanceProfile"] else change_list in
  Ok change_list.

(** [set(a) ^ set(b)]. *)
Definition symmetric_difference (a b : gset string) : gset string :=
  (a ∖ b) ∪ (b ∖ a).

(** ['DeviceName:%s' % dev]. *)
Definition device_name_tag (dev : string) : string := "DeviceName:" +:+ dev.

(** [instance_volume['Attachments'][0]]. *)
Definition first_attachment (v : InstanceVolume) : result Attachment :=
  match Attachments v with
  | a :: _ => Ok a
  | [] => Raise IndexError
  end.

(** [config_volume['Ebs']]. *)
Definition getitem_Ebs (v : ConfigVolume) : result EbsConfig :=
  match Ebs v with
  | Some e => Ok e
  | None => Raise (KeyError "Ebs")
  end.

(** The body of the loop over [instance_volumes_dict.iteritems()]. *)
Definition compare_volume (config_volumes_dict : gmap string ConfigVolume)
    (change_list : list string) (item : string * InstanceVolume) : result (list string) :=
  let '(device_name, instance_volume) := item in
  config_volume ← getitem config_volumes_dict device_name;
  ebs ← getitem_Ebs config_volume;
  let change_list :=
    if bool_decide (VolumeType instance_volume ≠ ebs_VolumeType ebs)
    then change_list ++ [device_name +:+ ".BlockDeviceMappings.Ebs.VolumeType"]
    else change_list in
  let change_list :=
    if bool_decide (Size instance_volume ≠ ebs_VolumeSize ebs)
    then change_list ++ [device_name +:+ ".BlockDeviceMappings.Ebs.Size"]
    else change_list in
  att ← first_attachment instance_volume;
  let change_list :=
    if bool_decide (DeleteOnTermination att ≠ ebs_DeleteOnTermination ebs)
    then change_list ++ [device_name +:+ ".BlockDeviceMappings" +:+ ".Ebs.DeleteOnTermination"]
    else change_list in
  Ok change_list.

(** The [for] loop, threading [change_list] through the items. *)
Fixpoint compare_volumes_loop (config_volumes_dict : gmap string ConfigVolume)
    (change_list : list string) (items : list (string * InstanceVolume))
    : result (list string) :=
  match items with
  | [] => Ok change_list
  | item :: rest =>
      change_list ← compare_volume config_volumes_dict change_list item;
      compare_volumes_loop config_volumes_dict change_list rest
  end.

(** [compare_volumes_config].  The iteration order of a Python dict is taken
    to be that of [map_to_list]. *)
Definition compare_volumes_config (instance_volumes_dict : gmap string InstanceVolume)
    (config_volumes_dict : gmap string ConfigVolume) : result (list string) :=
  if bool_decide (size config_volumes_dict = 0%nat)
     && bool_decide (size instance_volumes_dict = 1%nat)
  then Ok []
  else
    let device_name_differences :=
      symmetric_difference (dom instance_volumes_dict) (dom config_volumes_dict) in
    if bool_decide (size device_name_differences ≠ 0%nat)
    then Ok (device_name_tag <$> sorted (elements device_name_differences))
    else compare_volumes_loop config_volumes_dict [] (map_to_list instance_volumes_dict).

(** ** AwsManager *)

(** The boto3 clients behind [AwsManager], as oracles: each field says how
    the call ends (a value, or the exception raised). *)
Record AwsClients : Type := {
  (* _ec2_client.terminate_instances(DryRun=.., InstanceIds=..) *)
  ec2_terminate_instances : bool → list string → result ();
  (* _ec2_client.describe_instance_attribute(..)['UserData']['Value'] *)
  ec2_userdata : string → result pystr;
  (* _ec2_client.describe_volumes(VolumeIds=..)['Volumes'] *)
  ec2_describe_volumes : Instance → result (list InstanceVolume);
  (* list(_ec2.instances.filter(..)) for a group name *)
  ec2_running_instances : string → result (list Instance)
}.

Record AwsManager : Type := {
  _do_dry_run : bool;
  clients : AwsClients
}.

Definition terminate_instance (self : AwsManager) (instance_id : string) : result () :=
  match ec2_terminate_instances (clients self) (_do_dry_run self) [instance_id] with
  | Ok _ => Ok ()
  | Raise (ClientError code) =>
      if negb (str_in "DryRunOperation" code)
      then Raise (ClientError code)
      else Ok ()
  | Raise e => Raise e
  end.

Definition get_userdata_for_instance (self : AwsManager) (instance_id : string)
    : result pystr :=
  ec2_userdata (clients self) instance_id.

(** A dict comprehension: a later item with the same key replaces an
    earlier one. *)
Definition get_volumes_dict_for_instance (self : AwsManager) (instance : Instance)
    : result (gmap string InstanceVolume) :=
  volumes_response ← ec2_describe_volumes (clients self) instance;
  foldl (λ acc current_volume,
           d ← acc;
           att ← first_attachment current_volume;
           Ok (<[Device att := current_volume]> d))
        (Ok ∅) volumes_response.

Definition config_volumes_to_dict (block_device_mapping_config : list ConfigVolume)
    : gmap string ConfigVolume :=
  foldl (λ d current_volume, <[DeviceName current_volume := current_volume]> d)
        ∅ block_device_mapping_config.

Definition get_instances_for_asg (self : AwsManager) (asg : gmap string string)
    : result (list Instance) :=
  asg_name ← getitem asg "AutoScalingGroupName";
  ec2_running_instances (clients self) asg_name.

(** ** RollingUpgradeManager *)

(** [sorted(instances, key=lambda instance: instance.launch_time)[0]]. *)
Definition get_oldest_instance (instances : list Instance) : result Instance :=
  match sorted_by Z.leb launch_time instances with
  | oldest :: _ => Ok oldest
  | [] => Raise IndexError
  end.

Definition getitem_BlockDeviceMappings (config : LaunchConfig) : result (list ConfigVolume) :=
  match BlockDeviceMappings config with
  | Some l => Ok l
  | None => Raise (KeyError "BlockDeviceMappings")
  end.

Definition compare_instance_to_config (aws : AwsManager) (instance : Instance)
    (config : LaunchConfig) : result (list string) :=
  instance_userdata ← get_userdata_for_instance aws (instance_id instance);
  instance_changes ← compare_to_config instance config instance_userdata;
  instance_volume_dict ← get_volumes_dict_for_instance aws instance;
  mappings ← getitem_BlockDeviceMappings config;
  let config_volumes_dict := config_volumes_to_dict mappings in
  volume_changes ← compare_volumes_config instance_volume_dict config_volumes_dict;
  Ok (instance_changes ++ volume_changes).

(** The loop of [get_instances_to_upgrade]: the instances with a non-empty
    diff, in the order in which they are added to the set. *)
Fixpoint instances_with_diffs (aws : AwsManager) (config : LaunchConfig)
    (asg_instances : list Instance) : result (list Instance) :=
  match asg_instances with
  | [] => Ok []
  | instance :: rest =>
      diffs ← compare_instance_to_config aws instance config;
      added ← instances_with_diffs aws config rest;
      Ok (if bool_decide (length diffs ≠ 0%nat) then instance :: added else added)
  end.

(** [get_instances_to_upgrade].  [list_of_set] is the order in which
    [list(s)] enumerates a set, given the elements in the order they were
    added; Python fixes it by the hashes of the elements. *)
Definition get_instances_to_upgrade (list_of_set : list Instance → list Instance)
    (aws : AwsManager) (asg : gmap string string) (config : LaunchConfig)
    : result (list Instance) :=
  asg_instances ← get_instances_for_asg aws asg;
  instances_to_upgrade ← instances_with_diffs aws config asg_instances;
  Ok (list_of_set instances_to_upgrade).

(** ** InstanceSshManager *)

(** How the remote side answers during a probe of one address. *)
Record SshOutcome : Type := {
  (* _get_ssh_tunnel: the forwarder comes up (None) or an exception *)
  tunnel_start : option exn;
  (* _sshclient.connect: connected (None) or an exception *)
  client_connect : option exn;
  (* exec_command of the ls and recv_exit_status: exit status or an exception *)
  remote_ls : result Z
}.

(** The attribute [_ssh_tunnel]: never assigned, [None], or a started
    forwarder. *)
Inductive tunnel_slot : Type :=
  | NoAttribute
  | TunnelNone
  | TunnelObject.

(** The manager object.  [with_tunnel] tells the class
    ([InstanceSshManagerWithSshTunnel] or [InstanceSshManager]);
    [session_open] is the state of [_sshclient], [open_tunnels] counts the
    forwarders started and not closed. *)
Record InstanceSshManager : Type := {
  with_tunnel : bool;
  _connected : bool;
  _ssh_tunnel : tunnel_slot;
  session_open : bool;
  open_tunnels : nat
}.

(** [__init__]: [_ssh_tunnel] is not assigned by any constructor. *)
Definition new_manager (use_bastion_tunnel : bool) : InstanceSshManager :=
  {| with_tunnel := use_bastion_tunnel; _connected := false;
     _ssh_tunnel := NoAttribute; session_open := false; open_tunnels := 0 |}.

(** A method: the value or exception, and the object after the call. *)
Definition method (A : Type) : Type :=
  InstanceSshManager → result A * InstanceSshManager.

(** [_sshclient.connect(..)] *)
Definition sshclient_connect (out : SshOutcome) : method () := λ self,
  match client_connect out with
  | Some e => (Raise e, self)
  | None =>
      (Ok (), {| with_tunnel := with_tunnel self; _connected := _connected self;
                 _ssh_tunnel := _ssh_tunnel self; session_open := true;
                 open_tunnels := open_tunnels self |})
  end.

(** [_create_connection] of the two classes. *)
Definition _create_connection (out : SshOutcome) : method () := λ self,
  if with_tunnel self then
    match tunnel_start out with
    | Some e => (Raise e, self)
    | None =>
        sshclient_connect out
          {| with_tunnel := with_tunnel self; _connected := _connected self;
             _ssh_tunnel := TunnelObject; session_open := session_open self;
             open_tunnels := S (open_tunnels self) |}
    end
  else sshclient_connect out self.

Definition connect (out : SshOutcome) : method () := λ self,
  if _connected self then (Raise (IOError "Already connected"), self)
  else
    match _create_connection out self with
    | (Ok _, self') =>
        (Ok (), {| with_tunnel := with_tunnel self'; _connected := true;
                   _ssh_tunnel := _ssh_tunnel self'; session_open := session_open self';
                   open_tunnels := open_tunnels self' |})
    | (Raise e, self') => (Raise e, self')
    end.

(** [InstanceSshManager.close_connections]. *)
Definition base_close_connections : method () := λ self,
  (Ok (), {| with_tunnel := with_tunnel self; _connected := false;
             _ssh_tunnel := _ssh_tunnel self; session_open := false;
             open_tunnels := open_tunnels self |}).

(** [close_connections], dispatched on the class. *)
Definition close_connections : method () := λ self,
  if with_tunnel self then
    let '(_, self1) := base_close_connections self in
    match _ssh_tunnel self1 with
    | NoAttribute => (Raise (AttributeError (no_attribute "_ssh_tunnel")), self1)
    | TunnelNone => (Raise (AttributeError (no_attribute "close")), self1)
    | TunnelObject =>
        (Ok (), {| with_tunnel := with_tunnel self1; _connected := _connected self1;
                   _ssh_tunnel := TunnelNone; session_open := session_open self1;
                   open_tunnels := pred (open_tunnels self1) |})
    end
  else base_close_connections self.

(** The [try] block of [is_ready]. *)
Definition is_ready_try (out : SshOutcome) : method bool := λ self,
  match connect out self with
  | (Raise e, self') => (Raise e, self')
  | (Ok _, self') =>
      match remote_ls out with
      | Raise e => (Raise e, self')
      | Ok exit_code => (Ok (bool_decide (exit_code = 0)), self')
      end
  end.

(** [is_ready]: the bare [except] turns every exception of the [try] block
    into [False]; an exception raised by the [finally] block replaces the
    pending return. *)
Definition is_ready (remote : string → SshOutcome) (ip_address : string) : method bool :=
  λ self,
  let '(r, self1) := is_ready_try (remote ip_address) self in
  let r := match r with
           | Ok b => Ok b
           | Raise _ => Ok false
           end in
  match close_connections self1 with
  | (Ok _, self2) => (r, self2)
  | (Raise e, self2) => (Raise e, self2)
  end.

(** ** Finding the autoscaling group *)

(** An autoscaling group as [describe_auto_scaling_groups] returns it: the
    string-valued entries ([AutoScalingGroupName],
    [LaunchConfigurationName]) by key, and [DesiredCapacity], [None] when
    the key is absent. *)
Record AutoScalingGroup : Type := {
  asg_entries : gmap string string;
  DesiredCapacity : option Z
}.

(** [get_all_as_groups]: the groups of the pages, page after page. A page is
    given by its [AutoScalingGroups] entry. *)
Definition get_all_as_groups (pages : list (list AutoScalingGroup)) : list AutoScalingGroup :=
  concat pages.

(** [filter(lambda asg: test_re.match(asg['AutoScalingGroupName']), all_asgs)].
    [re_match pattern name] stands for [re.compile(pattern).match(name)]
    being a match. *)
Fixpoint filter_by_name (re_match : string → string → bool) (pattern : string)
    (all_asgs : list AutoScalingGroup) : result (list AutoScalingGroup) :=
  match all_asgs with
  | [] => Ok []
  | asg :: rest =>
      name ← getitem (asg_entries asg) "AutoScalingGroupName";
      kept ← filter_by_name re_match pattern rest;
      Ok (if re_match pattern name then asg :: kept else kept)
  end.

Definition find_asg_group (re_match : string → string → bool)
    (pages : list (list AutoScalingGroup)) (asg_regex_pat : string)
    : result (list AutoScalingGroup) :=
  let all_asgs := get_all_as_groups pages in
  filtered_asgs ← filter_by_name re_match asg_regex_pat all_asgs;
  if bool_decide (length filtered_asgs = 0%nat) then Ok []
  else if bool_decide (1 < length filtered_asgs)%nat then Ok filtered_asgs
  else match filtered_asgs with
       | first :: _ => Ok [first]
       | [] => Raise IndexError
       end.

(** [get_expected_num_of_instances]. *)
Definition get_expected_num_of_instances (asg : AutoScalingGroup) : result Z :=
  match DesiredCapacity asg with
  | Some n => Ok n
  | None => Raise (KeyError "DesiredCapacity")
  end.

(** [_get_single_asg]. The text of the [Exception] is left out. *)
Definition _get_single_asg (re_match : string → string → bool)
    (pages : list (list AutoScalingGroup)) (asg_slug : string) : result AutoScalingGroup :=
  let regex_pat := "^" +:+ asg_slug in
  as_group_list ← find_asg_group re_match pages regex_pat;
  match as_group_list with
  | [asg] => Ok asg
  | _ => Raise (OtherError "Exception")
  end.

(** The name of a group that has one. *)
Definition asg_name (asg : AutoScalingGroup) : string :=
  default "" (asg_entries asg !! "AutoScalingGroupName").


(** ** The waiting and upgrading loops *)

(** [are_all_instances_ready]: the probes are made in order and stop at the
    first instance that is not ready. *)
Fixpoint are_all_instances_ready (remote : string → SshOutcome)
    (instances : list Instance) : method bool := λ self,
  match instances with
  | [] => (Ok true, self)
  | instance :: rest =>
      match is_ready remote (private_ip_address instance) self with
      | (Raise e, self') => (Raise e, self')
      | (Ok false, self') => (Ok false, self')
      | (Ok true, self') => are_all_instances_ready remote rest self'
      end
  end.

(** The world the controller polls. Every call of [get_instances_for_asg]
    made by the controller is numbered; [clients_at k] is what the AWS
    clients answer at the time of call [k], [remote_at k] what the
    instances answer to the probes that follow call [k]. *)
Record Cloud : Type := {
  clients_at : nat → AwsClients;
  remote_at : nat → string → SshOutcome
}.

Definition manager_at (do_dry_run : bool) (cloud : Cloud) (clock : nat) : AwsManager :=
  {| _do_dry_run := do_dry_run; clients := clients_at cloud clock |}.

(** [sys.exit(1)]. *)
Definition SystemExit : exn := OtherError "SystemExit(1)".

(** The [while] loop of [wait_for_instances]. [remaining] is
    [_max_wait_attempts - current_attempts], [clock] the number of the call
    that returned [instances]. The result comes with the manager as the
    probes left it and with the number of the next call. *)
Fixpoint wait_loop (do_dry_run : bool) (cloud : Cloud) (asg : gmap string string)
    (expected_num_instances : Z) (remaining : nat) (clock : nat)
    (instances : list Instance) (self : InstanceSshManager)
    : result () * InstanceSshManager * nat :=
  match remaining with
  | O => (Ok (), self, S clock)
  | S remaining' =>
      let '(ready, self1) :=
        if bool_decide (expected_num_instances ≤ Z.of_nat (length instances))
        then are_all_instances_ready (remote_at cloud clock) instances self
        else (Ok false, self) in
      match ready with
      | Raise e => (Raise e, self1, S clock)
      | Ok true => (Ok (), self1, S clock)
      | Ok false =>
          match get_instances_for_asg (manager_at do_dry_run cloud (S clock)) asg with
          | Raise e => (Raise e, self1, S (S clock))
          | Ok instances' =>
              match remaining' with
              | O => (Raise SystemExit, self1, S (S clock))
              | S _ =>
                  wait_loop do_dry_run cloud asg expected_num_instances remaining'
                    (S clock) instances' self1
              end
          end
      end
  end.

Definition wait_for_instances (do_dry_run : bool) (cloud : Cloud)
    (max_wait_attempts : Z) (asg : gmap string string) (expected_num_instances : Z)
    (clock : nat) (self : InstanceSshManager) : result () * InstanceSshManager * nat :=
  match get_instances_for_asg (manager_at do_dry_run cloud clock) asg with
  | Raise e => (Raise e, self, S clock)
  | Ok instances =>
      wait_loop do_dry_run cloud asg expected_num_instances (Z.to_nat max_wait_attempts)
        clock instances self
  end.

(** [get_launch_config_for_asg]; [describe] is
    [describe_launch_configurations(..)['LaunchConfigurations']]. *)
Definition get_launch_config_for_asg (describe : string → result (list LaunchConfig))
    (asg : AutoScalingGroup) : result LaunchConfig :=
  config_name ← getitem (asg_entries asg) "LaunchConfigurationName";
  launch_configs ← describe config_name;
  match launch_configs with
  | config :: _ => Ok config
  | [] => Raise IndexError
  end.

(** How one round of the loop of [perform_rolling_upgrade_where_needed]
    ends: with the [break], or after [terminate_instance] on an id. *)
Inductive round_outcome : Type :=
  | Converged
  | Killed (instance_id : string).

(** The body of the [while True] loop. *)
Definition upgrade_round (list_of_set : list Instance → list Instance)
    (do_dry_run : bool) (cloud : Cloud) (max_wait_attempts : Z)
    (asg : gmap string string) (config : LaunchConfig) (expected_num_instances : Z)
    (clock : nat) (self : InstanceSshManager)
    : result round_outcome * InstanceSshManager * nat :=
  match wait_for_instances do_dry_run cloud max_wait_attempts asg
          expected_num_instances clock self with
  | (Raise e, self', clock') => (Raise e, self', clock')
  | (Ok _, self', clock') =>
      let aws := manager_at do_dry_run cloud clock' in
      match get_instances_to_upgrade list_of_set aws asg config with
      | Raise e => (Raise e, self', S clock')
      | Ok instances_to_upgrade =>
          if bool_decide (length instances_to_upgrade = 0%nat)
          then (Ok Converged, self', S clock')
          else
            match get_oldest_instance instances_to_upgrade with
            | Raise e => (Raise e, self', S clock')
            | Ok instance =>
                match terminate_instance aws (instance_id instance) with
                | Raise e => (Raise e, self', S clock')
                | Ok _ => (Ok (Killed (instance_id instance)), self', S clock')
                end
            end
      end
  end.

(** A run of the [while True] loop observed for a number of rounds: it has
    ended, or it is still going; in both cases with the ids it has
    terminated so far. *)
Inductive run : Type :=
  | Finished (outcome : result ()) (killed : list string)
  | Running (killed : list string).

Fixpoint upgrade_loop (rounds : nat) (list_of_set : list Instance → list Instance)
    (do_dry_run : bool) (cloud : Cloud) (max_wait_attempts : Z)
    (asg : gmap string string) (config : LaunchConfig) (expected_num_instances : Z)
    (clock : nat) (self : InstanceSshManager) (killed : list string) : run :=
  match rounds with
  | O => Running killed
  | S rounds' =>
      match upgrade_round list_of_set do_dry_run cloud max_wait_attempts asg config
              expected_num_instances clock self with
      | (Raise e, _, _) => Finished (Raise e) killed
      | (Ok Converged, _, _) => Finished (Ok ()) killed
      | (Ok (Killed instance_id), self', clock') =>
          upgrade_loop rounds' list_of_set do_dry_run cloud max_wait_attempts asg config
            expected_num_instances clock' self' (killed ++ [instance_id])
      end
  end.

(** [perform_rolling_upgrade_where_needed], observed for a number of
    rounds. *)
Definition perform_rolling_upgrade_where_needed (rounds : nat)
    (re_match : string → string → bool) (pages : list (list AutoScalingGroup))
    (describe : string → result (list LaunchConfig))
    (list_of_set : list Instance → list Instance)
    (do_dry_run : bool) (cloud : Cloud) (max_wait_attempts : Z)
    (asg_slug : string) (self : InstanceSshManager) : run :=
  match _get_single_asg re_match pages asg_slug with
  | Raise e => Finished (Raise e) []
  | Ok asg =>
      match get_launch_config_for_asg describe asg with
      | Raise e => Finished (Raise e) []
      | Ok config =>
          match get_expected_num_of_instances asg with
          | Raise e => Finished (Raise e) []
          | Ok expected_num_instances =>
              upgrade_loop rounds list_of_set do_dry_run cloud max_wait_attempts
                (asg_entries asg) config expected_num_instances 0 self []
          end
      end
  end.

(** The probe of an address succeeds: the connection is made and the [ls]
    of the marker exits with 0. *)
Definition boots (out : SshOutcome) : bool :=
  bool_decide (client_connect out = None)
  && match remote_ls out with
     | Ok exit_code => bool_decide (exit_code = 0)
     | Raise _ => false
     end.

(** A manager of the plain class with no connection open. *)
Definition plain_and_closed (self : InstanceSshManager) : Prop :=
  with_tunnel self = false ∧ _connected self = false ∧ session_open self = false.

(** A world that does not change. *)
Definition static_cloud (c : AwsClients) (remote : string → SshOutcome) : Cloud :=
  {| clients_at := λ _, c; remote_at := λ _, remote |}.

(** The test of one round of [wait_for_instances] on the instances just
    listed: enough of them, and all booted. *)
Definition instances_ready (cloud : Cloud) (expected_num_instances : Z) (clock : nat)
    (instances : list Instance) : bool :=
  bool_decide (expected_num_instances ≤ Z.of_nat (length instances))
  && forallb (λ i, boots (remote_at cloud clock (private_ip_address i))) instances.

(** The same test on what call [clock] of [get_instances_for_asg] lists. *)
Definition group_ready (do_dry_run : bool) (cloud : Cloud) (asg : gmap string string)
    (expected_num_instances : Z) (clock : nat) : bool :=
  match get_instances_for_asg (manager_at do_dry_run cloud clock) asg with
  | Ok instances => instances_ready cloud expected_num_instances clock instances
  | Raise _ => false
  end.

(** The instance has a non-empty diff against the configuration. *)
Definition needs_upgrade (aws : AwsManager) (config : LaunchConfig) (instance : Instance)
    : Prop :=
  ∃ diffs, compare_instance_to_config aws instance config = Ok diffs ∧ diffs ≠ [].

(** The ids a run has terminated. *)
Definition killed_of (r : run) : list string :=
  match r with
  | Finished _ killed => killed
  | Running killed => killed
  end.

(** The id is that of an instance which some listing of the group showed,
    which differed from the configuration then, and than which no instance
    differing then was older. *)
Definition oldest_drifted (do_dry_run : bool) (cloud : Cloud) (asg : gmap string string)
    (config : LaunchConfig) (id : string) : Prop :=
  ∃ clock listing victim,
    get_instances_for_asg (manager_at do_dry_run cloud clock) asg = Ok listing
    ∧ victim ∈ listing
    ∧ instance_id victim = id
    ∧ needs_upgrade (manager_at do_dry_run cloud clock) config victim
    ∧ ∀ x, x ∈ listing → needs_upgrade (manager_at do_dry_run cloud clock) config x →
           launch_time victim ≤ launch_time x.

(** ** Vocabulary of the statements *)

(** The arguments of the four calls of [check_attr], in order. *)
Definition required_attrs : list (string * string) :=
  [("image_id", "ImageId"); ("instance_type", "InstanceType");
   ("kernel_id", "KernelId"); ("key_name", "KeyName")].

(** What a call of [check_attr] appends. *)
Definition tag_if (b : bool) (tag : string) : list string :=
  if b then [tag] else [].

(** The test of [check_attr] on the two values as read. *)
Definition drifted (instance_value config_value : pystr) : bool :=
  bool_decide (or_empty config_value ≠ "")
  && bool_decide (or_empty instance_value ≠ or_empty config_value).

(** A security group dict has the key that [compare_to_config] reads. *)
Definition has_group_id (sg : gmap string string) : Prop := is_Some (sg !! "GroupId").

(** The lookups before the first [check_attr] succeed. *)
Definition preamble_ok (instance : Instance) (config : LaunchConfig) : Prop :=
  is_Some (entries config !! "UserData")
  ∧ Forall has_group_id (security_groups instance)
  ∧ is_Some (SecurityGroups config).

(** Everything [compare_to_config] looks up without a default is there. *)
Definition complete (instance : Instance) (config : LaunchConfig) : Prop :=
  preamble_ok instance config
  ∧ Forall (λ '(instance_attr_name, config_attr_name),
              is_Some (attrs instance !! instance_attr_name)
              ∧ is_Some (entries config !! config_attr_name)) required_attrs.


(** [setattr(instance, name, value)]. *)
Definition setattr (instance : Instance) (name : string) (value : pystr) : Instance :=
  {| instance_id := instance_id instance;
     launch_time := launch_time instance;
     private_ip_address := private_ip_address instance;
     security_groups := security_groups instance;
     attrs := <[name := value]> (attrs instance) |}.

(** [delattr(instance, name)]. *)
Definition delattr (instance : Instance) (name : string) : Instance :=
  {| instance_id := instance_id instance;
     launch_time := launch_time instance;
     private_ip_address := private_ip_address instance;
     security_groups := security_groups instance;
     attrs := delete name (attrs instance) |}.

(** [del config[key]] on one of the string-valued entries. *)
Definition delitem (config : LaunchConfig) (key : string) : LaunchConfig :=
  {| entries := delete key (entries config);
     SecurityGroups := SecurityGroups config;
     BlockDeviceMappings := BlockDeviceMappings config |}.

(** [sg['GroupId']] where the key is there. *)
Definition group_id_of (sg : gmap string string) : string :=
  default "" (sg !! "GroupId").

(** The tags of [compare_to_config], in the order of its statements. *)
Definition tag_order : list string :=
  ["UserData"; "SecurityGroups"; "ImageId"; "InstanceType"; "KernelId"; "KeyName";
   "IamInstanceProfile"].

(** [getattr(o, name, '') or ''] and [d.get(key, '') or '']: absent, [None]
    and the empty string all read as the empty string. *)
Definition optional_value (looked_up : option pystr) : string :=
  or_empty (default (Some "") looked_up).

(** The launch configuration that describes a given instance: every compared
    entry is copied from the instance. *)
Definition config_of (instance : Instance) (instance_userdata : pystr) : LaunchConfig :=
  {| entries :=
       <["UserData" := instance_userdata]>
       (<["ImageId" := default None (attrs instance !! "image_id")]>
       (<["InstanceType" := default None (attrs instance !! "instance_type")]>
       (<["KernelId" := default None (attrs instance !! "kernel_id")]>
       (<["KeyName" := default None (attrs instance !! "key_name")]>
       (<["IamInstanceProfile" :=
            default None (attrs instance !! "iam_instance_profile")]> ∅)))));
     SecurityGroups := Some (group_id_of <$> security_groups instance);
     BlockDeviceMappings := Some [] |}.

(** What one round of the loop of [compare_volumes_config] appends for a
    device, given the volume, the [Ebs] entry and the first attachment. *)
Definition volume_tags (device_name : string) (instance_volume : InstanceVolume)
    (ebs : EbsConfig) (att : Attachment) : list string :=
  (tag_if (bool_decide (VolumeType instance_volume ≠ ebs_VolumeType ebs))
          (device_name +:+ ".BlockDeviceMappings.Ebs.VolumeType")
   ++ tag_if (bool_decide (Size instance_volume ≠ ebs_VolumeSize ebs))
          (device_name +:+ ".BlockDeviceMappings.Ebs.Size"))
  ++ tag_if (bool_decide (DeleteOnTermination att ≠ ebs_DeleteOnTermination ebs))
          (device_name +:+ ".BlockDeviceMappings" +:+ ".Ebs.DeleteOnTermination").

(** The device a described volume is keyed by:
    [current_volume['Attachments'][0]['Device']]. *)
Definition attached_device (current_volume : InstanceVolume) : option string :=
  Device <$> head (Attachments current_volume).

(** ** Concrete inputs *)

Definition sample_instance : Instance :=
  {| instance_id := "i-0a1";
     launch_time := 1469529000;
     private_ip_address := "10.0.0.7";
     security_groups := [{["GroupId" := "sg-2"]}; {["GroupId" := "sg-1"]}];
     attrs := {["image_id" := Some "ami-1"]} ∪ {["instance_type" := Some "t2.micro"]}
              ∪ {["kernel_id" := None]} ∪ {["key_name" := Some "crunch-dev"]} |}.

Definition sample_config : LaunchConfig :=
  {| entries := {["UserData" := Some "userdata"]} ∪ {["ImageId" := Some "ami-2"]}
                ∪ {["InstanceType" := Some ""]} ∪ {["KernelId" := None]}
                ∪ {["KeyName" := Some "crunch-dev"]};
     SecurityGroups := Some ["sg-1"; "sg-2"];
     BlockDeviceMappings := Some [] |}.

(** The same instance and configuration with the security groups listed in
    another order. *)
Definition sample_instance_reordered : Instance :=
  {| instance_id := instance_id sample_instance;
     launch_time := launch_time sample_instance;
     private_ip_address := private_ip_address sample_instance;
     security_groups := [{["GroupId" := "sg-1"]}; {["GroupId" := "sg-2"]}];
     attrs := attrs sample_instance |}.

Definition sample_config_reordered : LaunchConfig :=
  {| entries := entries sample_config;
     SecurityGroups := Some ["sg-2"; "sg-1"];
     BlockDeviceMappings := BlockDeviceMappings sample_config |}.

Definition sample_volume : InstanceVolume :=
  {| VolumeType := "gp2"; Size := 8;
     Attachments := [{| Device := "sda1"; DeleteOnTermination := true |}] |}.

Definition sample_config_volume (device : string) : ConfigVolume :=
  {| DeviceName := device;
     Ebs := Some {| ebs_VolumeType := "standard"; ebs_VolumeSize := 16;
                    ebs_DeleteOnTermination := false |} |}.

(** Scenario S4 of the specification: devices [{sda1}] on the instance,
    [{sda1, sda2}] in the configuration. *)
Definition s4_instance_volumes : gmap string InstanceVolume :=
  {["sda1" := sample_volume]}.

Definition s4_config_volumes : gmap string ConfigVolume :=
  config_volumes_to_dict [sample_config_volume "sda1"; sample_config_volume "sda2"].

(** A configured EBS volume with the attributes of [sample_volume]. *)
Definition matching_config_volume (device : string) : ConfigVolume :=
  {| DeviceName := device;
     Ebs := Some {| ebs_VolumeType := "gp2"; ebs_VolumeSize := 8;
                    ebs_DeleteOnTermination := true |} |}.

(** A configured instance-store mapping: it has no [Ebs] entry. *)
Definition ephemeral_config_volume (device : string) : ConfigVolume :=
  {| DeviceName := device; Ebs := None |}.

(** Scenario S5 of the specification. *)
Definition s5_instance_volumes : gmap string InstanceVolume :=
  <["sda1" := sample_volume]> (<["sda2" := sample_volume]> ∅).

Definition s5_config_volumes : gmap string ConfigVolume :=
  <["sda1" := matching_config_volume "sda1"]>
    (<["sda2" := sample_config_volume "sda2"]> ∅).

Definition ephemeral_config_volumes : gmap string ConfigVolume :=
  <["sda1" := ephemeral_config_volume "sda1"]> ∅.

(** A stand-in for [re.match] on the patterns the script builds: [^] followed
    by a literal prefix. *)
Definition literal_match (pattern name : string) : bool :=
  match pattern with
  | String "^"%char literal => String.prefix literal name
  | _ => String.prefix pattern name
  end.

Definition named_group (name : string) : AutoScalingGroup :=
  {| asg_entries := {["AutoScalingGroupName" := name]}; DesiredCapacity := Some 3 |}.

(** The page of the test suite. *)
Definition sample_pages : list (list AutoScalingGroup) :=
  [[named_group "foo"; named_group "bar"; named_group "lll"; named_group "ooo";
    named_group "test_pat_1"]].

(** Two candidates launched at the same time. *)
Definition tied_a : Instance :=
  {| instance_id := "i-a"; launch_time := 1469338200; private_ip_address := "10.0.0.1";
     security_groups := []; attrs := ∅ |}.

Definition tied_b : Instance :=
  {| instance_id := "i-b"; launch_time := 1469338200; private_ip_address := "10.0.0.2";
     security_groups := []; attrs := ∅ |}.

(** An instance launched at the given time (scenario S6). *)
Definition launched_at (t : Z) : Instance :=
  {| instance_id := ""; launch_time := t; private_ip_address := "";
     security_groups := []; attrs := ∅ |}.

(** Clients whose [terminate_instances] ends as given, as the mocked client
    of the test suite. *)
Definition mock_clients (terminate_outcome : result ()) : AwsClients :=
  {| ec2_terminate_instances := λ _ _, terminate_outcome;
     ec2_userdata := λ _, Ok (Some "userdata");
     ec2_describe_volumes := λ _, Ok [];
     ec2_running_instances := λ _, Ok [] |}.

(** [AwsManager()] of the test fixture: the dry-run flag is off. *)
Definition mock_aws_manager (terminate_outcome : result ()) : AwsManager :=
  {| _do_dry_run := false; clients := mock_clients terminate_outcome |}.

(** The bastion cannot be reached: starting the forwarder raises. *)
Definition unreachable_bastion : string → SshOutcome :=
  λ _, {| tunnel_start := Some (OtherError "BaseSSHTunnelForwarderError");
          client_connect := None;
          remote_ls := Ok 0 |}.

(** Everything works and the marker file is there. *)
Definition booted : string → SshOutcome :=
  λ _, {| tunnel_start := None; client_connect := None; remote_ls := Ok 0 |}.

(** The instance answers, but cloud-init has not finished. *)
Definition still_booting : string → SshOutcome :=
  λ _, {| tunnel_start := None; client_connect := None; remote_ls := Ok 2 |}.

(** Clients that list the given instances and describe one default volume
    for each. *)
Definition listing_clients (instances : list Instance) : AwsClients :=
  {| ec2_terminate_instances := λ _ _, Raise (ClientError "DryRunOperation");
     ec2_userdata := λ _, Ok (Some "userdata");
     ec2_describe_volumes := λ _, Ok [sample_volume];
     ec2_running_instances := λ _, Ok instances |}.

Definition test_asg : gmap string string := {["AutoScalingGroupName" := "test-asg"]}.

(** Scenario S7 of the specification: the calls list one, one, two and then
    three instances, all of them booted. *)
Definition s7_cloud : Cloud :=
  {| clients_at := λ k,
       listing_clients (take (nth k [1; 1; 2] 3)%nat [tied_a; tied_b; sample_instance]);
     remote_at := λ _, booted |}.

(** A group that never fills up. *)
Definition short_cloud : Cloud :=
  {| clients_at := λ _, listing_clients [tied_a]; remote_at := λ _, booted |}.

(** A group of one booted instance that differs from [sample_config]. *)
Definition drifted_cloud : Cloud :=
  static_cloud (listing_clients [sample_instance]) booted.

(** The group of the upgrade scenarios, its page and its launch
    configuration. *)
Definition upgrade_group : AutoScalingGroup :=
  {| asg_entries := {["AutoScalingGroupName" := "test-asg"]}
                    ∪ {["LaunchConfigurationName" := "lc-1"]};
     DesiredCapacity := Some 1 |}.

Definition describe_sample_config : string → result (list LaunchConfig) :=
  λ _, Ok [sample_config].

(** * Properties *)

(** ** The order on strings *)

Lemma str_compare_le_trans (a b c : string) :
  (a ?= b)%string ≠ Gt → (b ?= c)%string ≠ Gt → (a ?= c)%string ≠ Gt.
Proof.
  revert b c. induction a as [|x a IH]; intros [|y b] [|z c]; simpl; try congruence.
  unfold Ascii.compare.
  destruct (N.compare_spec (N_of_ascii x) (N_of_ascii y)) as [Hxy|Hxy|Hxy];
    destruct (N.compare_spec (N_of_ascii y) (N_of_ascii z)) as [Hyz|Hyz|Hyz];
    destruct (N.compare_spec (N_of_ascii x) (N_of_ascii z)) as [Hxz|Hxz|Hxz];
    try congruence; try lia.
  apply IH.
Qed.

#[global] Instance str_le_trans : Transitive str_le.
Proof.
  intros a b c. unfold str_le, String.leb. intros Hab Hbc.
  pose proof (str_compare_le_trans a b c) as H.
  destruct (a ?= b)%string eqn:E1; try discriminate;
    destruct (b ?= c)%string eqn:E2; try discriminate;
    destruct (a ?= c)%string; try reflexivity; exfalso; apply H; congruence.
Qed.

#[global] Instance str_le_antisym : AntiSymm (=) str_le.
Proof. intros a b. apply String.leb_antisym. Qed.

#[global] Instance str_le_total : Total str_le.
Proof. intros a b. apply String.leb_total. Qed.

(** ** [sorted_by] is a stable sort *)

Section sorted_facts.
Context {A K : Type} (le : K → K → bool) (key : A → K).

Lemma insert_by_perm (x : A) (l : list A) : insert_by le key x l ≡ₚ x :: l.
Proof.
  induction l as [|y l IH]; simpl; [done|].
  destruct (le (key x) (key y)); [done|].
  rewrite IH. apply Permutation_swap.
Qed.

Lemma sorted_by_perm (l : list A) : sorted_by le key l ≡ₚ l.
Proof.
  induction l as [|x l IH]; simpl; [done|].
  by rewrite insert_by_perm, IH.
Qed.

Lemma sorted_by_nil_inv (l : list A) : sorted_by le key l = [] → l = [].
Proof.
  intros H. pose proof (sorted_by_perm l) as Hp. rewrite H in Hp.
  by apply Permutation_nil in Hp.
Qed.

Hypothesis le_total : ∀ a b, le a b = true ∨ le b a = true.

Lemma insert_by_Sorted (x : A) (l : list A) :
  Sorted (key_le le key) l → Sorted (key_le le key) (insert_by le key x l).
Proof.
  induction 1 as [|y l Hl IH Hy]; simpl.
  - by repeat constructor.
  - destruct (le (key x) (key y)) eqn:E.
    + constructor; [by constructor|]. by constructor.
    + constructor; [done|].
      assert ((key_le le key) y x) as Hyx by (destruct (le_total (key x) (key y)); [congruence|done]).
      destruct Hy as [|z l Hyz]; simpl; [by constructor|].
      destruct (le (key x) (key z)); by constructor.
Qed.

Lemma sorted_by_Sorted (l : list A) : Sorted (key_le le key) (sorted_by le key l).
Proof.
  induction l as [|x l IH]; simpl; [constructor|]. by apply insert_by_Sorted.
Qed.

Hypothesis le_trans : ∀ a b c, le a b = true → le b c = true → le a c = true.

(** The head of the sorted list is the first element of the input whose
    key is minimal: every element before it has a strictly larger key
    (it is not below the head), every element after it a key that is not
    smaller. *)
Lemma sorted_by_head (l : list A) (v : A) (rest : list A) :
  sorted_by le key l = v :: rest →
  ∃ pre post, l = pre ++ v :: post
    ∧ (∀ x, x ∈ pre → le (key x) (key v) = false)
    ∧ (∀ x, x ∈ post → le (key v) (key x) = true).
Proof.
  revert v rest. induction l as [|x l IH]; intros v rest; simpl; [done|].
  destruct (sorted_by le key l) as [|y ys] eqn:E; simpl.
  - intros [= <- <-]. apply sorted_by_nil_inv in E as ->.
    exists [], []. split; [done|]. split; intros ? ?%elem_of_nil; done.
  - destruct (IH y ys eq_refl) as (pre & post & -> & Hpre & Hpost).
    destruct (le (key x) (key y)) eqn:Exy.
    + intros [= <- <-]. exists [], (pre ++ y :: post).
      split; [done|]. split; [intros ? ?%elem_of_nil; done|].
      intros z [Hz|[->|Hz]%elem_of_cons]%elem_of_app; [|done|].
      * destruct (le_total (key x) (key z)) as [|Hzx]; [done|].
        pose proof (Hpre z Hz) as Hf.
        by rewrite (le_trans _ _ _ Hzx Exy) in Hf.
      * eauto.
    + intros [= <- <-]. exists (x :: pre), post.
      split; [done|]. split; [|done].
      intros z [->|Hz]%elem_of_cons; auto.
Qed.
End sorted_facts.

Lemma sorted_Permutation (l1 l2 : list string) :
  l1 ≡ₚ l2 → sorted l1 = sorted l2.
Proof.
  intros Hp. unfold sorted.
  apply (Sorted_unique str_le).
  - apply (sorted_by_Sorted String.leb id), String.leb_total.
  - apply (sorted_by_Sorted String.leb id), String.leb_total.
  - by rewrite !sorted_by_perm.
Qed.

Lemma sorted_eq_iff_Permutation (l1 l2 : list string) :
  sorted l1 = sorted l2 ↔ l1 ≡ₚ l2.
Proof.
  split; [|apply sorted_Permutation].
  intros H. unfold sorted in H.
  by rewrite <- (sorted_by_perm String.leb id l1), H, sorted_by_perm.
Qed.


(** Membership in a list that is written out. *)
Ltac solve_elem :=
  simpl; repeat first [apply list_elem_of_here | apply list_elem_of_further].

(** ** [check_attr] *)

Lemma check_attr_Ok inst cfg cl ia ck iv cv :
  attrs inst !! ia = Some iv → entries cfg !! ck = Some cv →
  check_attr inst cfg cl ia ck = Ok (cl ++ tag_if (drifted iv cv) ck).
Proof.
  intros Hi Hc. unfold check_attr, getattr, getitem, drifted, tag_if.
  rewrite Hi, Hc. simpl.
  destruct (_ && _); simpl; [done|]. by rewrite app_nil_r.
Qed.

Lemma check_attr_no_attribute inst cfg cl ia ck :
  attrs inst !! ia = None →
  check_attr inst cfg cl ia ck = Raise (AttributeError (no_attribute ia)).
Proof. intros Hi. unfold check_attr, getattr. by rewrite Hi. Qed.

Lemma check_attr_no_key inst cfg cl ia ck iv :
  attrs inst !! ia = Some iv → entries cfg !! ck = None →
  check_attr inst cfg cl ia ck = Raise (AttributeError (missing_required ck)).
Proof. intros Hi Hc. unfold check_attr, getattr, getitem. by rewrite Hi, Hc. Qed.

Lemma check_attr_Ok_inv inst cfg cl ia ck cl' :
  check_attr inst cfg cl ia ck = Ok cl' →
  ∃ iv cv, attrs inst !! ia = Some iv ∧ entries cfg !! ck = Some cv
           ∧ cl' = cl ++ tag_if (drifted iv cv) ck.
Proof.
  destruct (attrs inst !! ia) as [iv|] eqn:Hi;
    [|by rewrite check_attr_no_attribute].
  destruct (entries cfg !! ck) as [cv|] eqn:Hc;
    [|by erewrite check_attr_no_key].
  erewrite check_attr_Ok by done. intros [= <-]. eauto.
Qed.

Lemma elem_of_tag_if (t tag : string) (b : bool) :
  t ∈ tag_if b tag ↔ b = true ∧ t = tag.
Proof.
  destruct b; simpl.
  - rewrite list_elem_of_singleton. split; [by intros ->|by intros [_ ->]].
  - rewrite elem_of_nil. split; [done|by intros [? _]].
Qed.


(** ** [compare_to_config] *)

(** The shape of every returned diff. *)
Lemma compare_to_config_Ok_inv inst cfg ud diff :
  compare_to_config inst cfg ud = Ok diff →
  ∃ cu ids groups i1 c1 i2 c2 i3 c3 i4 c4,
    entries cfg !! "UserData" = Some cu
    ∧ group_ids inst = Ok ids
    ∧ SecurityGroups cfg = Some groups
    ∧ (attrs inst !! "image_id" = Some i1 ∧ entries cfg !! "ImageId" = Some c1)
    ∧ (attrs inst !! "instance_type" = Some i2 ∧ entries cfg !! "InstanceType" = Some c2)
    ∧ (attrs inst !! "kernel_id" = Some i3 ∧ entries cfg !! "KernelId" = Some c3)
    ∧ (attrs inst !! "key_name" = Some i4 ∧ entries cfg !! "KeyName" = Some c4)
    ∧ diff =
        ((((((tag_if (bool_decide (ud ≠ cu)) "UserData"
         ++ tag_if (bool_decide (sorted ids ≠ sorted groups)) "SecurityGroups")
         ++ tag_if (drifted i1 c1) "ImageId")
         ++ tag_if (drifted i2 c2) "InstanceType")
         ++ tag_if (drifted i3 c3) "KernelId")
         ++ tag_if (drifted i4 c4) "KeyName")
         ++ tag_if (bool_decide
              (or_empty (default (Some "") (attrs inst !! "iam_instance_profile"))
               ≠ or_empty (default (Some "") (entries cfg !! "IamInstanceProfile"))))
              "IamInstanceProfile").
Proof.
  unfold compare_to_config, getitem at 1, getitem_SecurityGroups.
  destruct (entries cfg !! "UserData") as [cu|]; [simpl|done].
  destruct (group_ids inst) as [ids|]; [simpl|done].
  destruct (SecurityGroups cfg) as [groups|]; [simpl|done].
  destruct (check_attr _ _ _ "image_id" _) as [l1|] eqn:E1; [simpl|done].
  destruct (check_attr _ _ _ "instance_type" _) as [l2|] eqn:E2; [simpl|done].
  destruct (check_attr _ _ _ "kernel_id" _) as [l3|] eqn:E3; [simpl|done].
  destruct (check_attr _ _ _ "key_name" _) as [l4|] eqn:E4; [simpl|done].
  apply check_attr_Ok_inv in E1 as (i1 & c1 & ? & ? & ->).
  apply check_attr_Ok_inv in E2 as (i2 & c2 & ? & ? & ->).
  apply check_attr_Ok_inv in E3 as (i3 & c3 & ? & ? & ->).
  apply check_attr_Ok_inv in E4 as (i4 & c4 & ? & ? & ->).
  intros [= <-]. exists cu, ids, groups, i1, c1, i2, c2, i3, c3, i4, c4.
  repeat (split; [done|]).
  repeat match goal with |- context [if ?b then _ else _] => destruct b end;
    simpl; by rewrite ?app_nil_r.
Qed.

Lemma getitem_Some {V} (d : gmap string V) key v :
  d !! key = Some v → getitem d key = Ok v.
Proof. intros H. unfold getitem. by rewrite H. Qed.

Lemma getitem_None {V} (d : gmap string V) key :
  d !! key = None → getitem d key = Raise (KeyError key).
Proof. intros H. unfold getitem. by rewrite H. Qed.

(** The list comprehension over the security groups: the ids in order, or
    the [KeyError] of the first dict without [GroupId]. *)
Lemma group_ids_spec inst :
  group_ids inst =
    if decide (Forall has_group_id (security_groups inst))
    then Ok (group_id_of <$> security_groups inst)
    else Raise (KeyError "GroupId").
Proof.
  unfold group_ids. induction (security_groups inst) as [|sg l IH].
  - by destruct (decide _) as [?|[]].
  - change (mapM _ (sg :: l)) with
      (getitem sg "GroupId" ≫= λ y,
         mapM (λ sg0 : gmap string string, getitem sg0 "GroupId") l
           ≫= λ k, Ok (y :: k)).
    rewrite IH. clear IH.
    destruct (sg !! "GroupId") as [g|] eqn:Hg.
    + rewrite (getitem_Some _ _ _ Hg).
      destruct (decide (Forall has_group_id l)) as [Hl|Hl];
        destruct (decide (Forall has_group_id (sg :: l))) as [Hsl|Hsl]; simpl.
      * f_equal. f_equal. unfold group_id_of. by rewrite Hg.
      * destruct Hsl. constructor; [by eexists|done].
      * by apply Forall_cons in Hsl as [_ ?].
      * done.
    + rewrite (getitem_None _ _ Hg).
      destruct (decide (Forall has_group_id (sg :: l))) as [Hsl|Hsl]; [|done].
      apply Forall_cons in Hsl as [[? Hs] _]. congruence.
Qed.

Lemma group_ids_Ok inst :
  Forall has_group_id (security_groups inst) →
  group_ids inst = Ok (group_id_of <$> security_groups inst).
Proof. intros H. by rewrite group_ids_spec, decide_True. Qed.

Lemma compare_to_config_returns inst cfg ud :
  complete inst cfg → ∃ diff, compare_to_config inst cfg ud = Ok diff.
Proof.
  intros (([cu Hcu] & Hids%group_ids_Ok & [groups Hg]) & Hreq).
  unfold required_attrs in Hreq.
  repeat match type of Hreq with
         | Forall _ (_ :: _) => apply Forall_cons in Hreq as [[[? ?] [? ?]] Hreq]
         end.
  unfold compare_to_config, getitem_SecurityGroups.
  rewrite (getitem_Some _ _ _ Hcu), Hids, Hg. simpl.
  repeat (erewrite check_attr_Ok by done; simpl).
  by eexists.
Qed.

Lemma sample_complete : complete sample_instance sample_config.
Proof.
  unfold complete, preamble_ok, required_attrs.
  repeat first
    [ apply Forall_nil_2
    | apply Forall_cons_2
    | split
    | by (eexists; vm_compute) ].
Qed.



(** C10. A launch configuration without the key [UserData] or without the
    key [SecurityGroups] makes [compare_to_config] raise a [KeyError], the
    raw lookup failure: for [UserData] whatever else the inputs hold, for
    [SecurityGroups] as soon as [UserData] and the group ids were read. *)
Theorem missing_UserData_or_SecurityGroups_KeyError inst cfg ud :
  entries cfg !! "UserData" = None ∨ SecurityGroups cfg = None →
  ∃ key, compare_to_config inst cfg ud = Raise (KeyError key)
    ∧ (entries cfg !! "UserData" = None → key = "UserData")
    ∧ (is_Some (entries cfg !! "UserData") →
       Forall has_group_id (security_groups inst) → key = "SecurityGroups").
Proof.
  intros Hmiss. unfold compare_to_config.
  destruct (entries cfg !! "UserData") as [cu|] eqn:Hcu.
  - destruct Hmiss as [?|Hsg]; [done|].
    rewrite (getitem_Some _ _ _ Hcu). simpl. rewrite group_ids_spec.
    destruct (decide _) as [Hall|Hnot]; simpl.
    + unfold getitem_SecurityGroups. rewrite Hsg. simpl.
      exists "SecurityGroups". by repeat split.
    + exists "GroupId". split; [done|]. split; [done|]. by intros _ ?.
  - rewrite (getitem_None _ _ Hcu). simpl.
    exists "UserData". split; [done|]. split; [done|]. by intros [? ?].
Qed.

Lemma missing_UserData_or_SecurityGroups_KeyError_witness :
  ∃ key, compare_to_config sample_instance (delitem sample_config "UserData")
           (Some "userdata") = Raise (KeyError key)
    ∧ (entries (delitem sample_config "UserData") !! "UserData" = None → key = "UserData")
    ∧ (is_Some (entries (delitem sample_config "UserData") !! "UserData") →
       Forall has_group_id (security_groups sample_instance) → key = "SecurityGroups").
Proof.
  apply (missing_UserData_or_SecurityGroups_KeyError sample_instance
           (delitem sample_config "UserData") (Some "userdata")).
  left. vm_compute. reflexivity.
Defined.

Lemma preamble_ok_inv inst cfg :
  preamble_ok inst cfg →
  ∃ cu groups, entries cfg !! "UserData" = Some cu
    ∧ group_ids inst = Ok (group_id_of <$> security_groups inst)
    ∧ SecurityGroups cfg = Some groups.
Proof. intros ([cu ?] & ?%group_ids_Ok & [groups ?]). eauto. Qed.



(** The run on the witness of C6, evaluated. *)
Example missing_KernelId_run :
  compare_to_config sample_instance (delitem sample_config "KernelId") (Some "userdata")
  = Raise (AttributeError
      "Launch configuration response was missing required attribute KernelId").
Proof. vm_compute. reflexivity. Qed.

Example sample_run :
  compare_to_config sample_instance sample_config (Some "userdata") = Ok ["ImageId"].
Proof. vm_compute. reflexivity. Qed.

(** ** A missing instance attribute *)

Lemma check_attr_cases inst cfg cl ia ck :
  (∃ cl', check_attr inst cfg cl ia ck = Ok cl')
  ∨ (∃ msg, check_attr inst cfg cl ia ck = Raise (AttributeError msg)).
Proof.
  destruct (attrs inst !! ia) as [iv|] eqn:Hi;
    [|right; rewrite check_attr_no_attribute by done; by eexists].
  destruct (entries cfg !! ck) as [cv|] eqn:Hc.
  - left. erewrite check_attr_Ok by done. by eexists.
  - right. erewrite check_attr_no_key by done. by eexists.
Qed.

(** After the first lookups only [check_attr] can raise. *)
Lemma compare_to_config_after_preamble inst cfg ud :
  preamble_ok inst cfg →
  (∃ diff, compare_to_config inst cfg ud = Ok diff)
  ∨ (∃ msg, compare_to_config inst cfg ud = Raise (AttributeError msg)).
Proof.
  intros (cu & groups & Hcu & Hids & Hg)%preamble_ok_inv.
  unfold compare_to_config, getitem_SecurityGroups.
  rewrite (getitem_Some _ _ _ Hcu), Hids, Hg. simpl.
  repeat match goal with
  | |- context [check_attr ?i ?c ?l ?a ?k ≫= _] =>
      destruct (check_attr_cases i c l a k) as [[? ->]|[? ->]]; simpl;
        [|right; by eexists]
  end.
  left. by eexists.
Qed.

Lemma check_attr_setattr_None inst cfg cl name ia ck :
  check_attr (setattr inst name None) cfg cl ia ck
  = check_attr (setattr inst name (Some "")) cfg cl ia ck.
Proof.
  unfold check_attr, getattr, setattr. simpl.
  destruct (decide (name = ia)) as [->|Hne].
  - by rewrite !lookup_insert_eq.
  - by rewrite !lookup_insert_ne.
Qed.

(** C3, as the code has it. An instance on which one of the attributes
    [image_id], [instance_type], [kernel_id], [key_name] is absent gets no
    diff: [compare_to_config] raises, and what it raises is an
    [AttributeError] once the lookups before [check_attr] have succeeded.
    It is the attribute that is present with the value [None] that is
    treated as the empty string. *)
Theorem missing_instance_attribute_raises inst cfg ud ia :
  ia ∈ required_attrs.*1 →
  attrs inst !! ia = None →
  (∀ diff, compare_to_config inst cfg ud ≠ Ok diff)
  ∧ (preamble_ok inst cfg →
     ∃ msg, compare_to_config inst cfg ud = Raise (AttributeError msg))
  ∧ compare_to_config (setattr inst ia None) cfg ud
    = compare_to_config (setattr inst ia (Some "")) cfg ud.
Proof.
  intros Hin Hia.
  assert (∀ diff, compare_to_config inst cfg ud ≠ Ok diff) as Hno.
  { intros diff (cu & ids & groups & i1 & c1 & i2 & c2 & i3 & c3 & i4 & c4
                 & _ & _ & _ & [? _] & [? _] & [? _] & [? _] & _)%compare_to_config_Ok_inv.
    simpl in Hin. repeat (apply elem_of_cons in Hin as [->|Hin]); try congruence.
    by apply elem_of_nil in Hin. }
  split; [done|]. split.
  - intros [[diff Hd]|Hraise]%(compare_to_config_after_preamble _ _ ud); [|done].
    by destruct (Hno diff).
  - unfold compare_to_config.
    destruct (getitem (entries cfg) "UserData") as [cu|]; [simpl|done].
    change (group_ids (setattr inst ia None)) with (group_ids inst).
    change (group_ids (setattr inst ia (Some ""))) with (group_ids inst).
    destruct (group_ids inst) as [ids|]; [simpl|done].
    destruct (getitem_SecurityGroups cfg) as [groups|]; [simpl|done].
    repeat match goal with
    | |- context [check_attr ?i ?c ?l ?a ?k ≫= _] =>
        rewrite (check_attr_setattr_None inst c l ia a k);
        destruct (check_attr (setattr inst ia (Some "")) c l a k); simpl; [|done]
    end.
    destruct (decide (ia = "iam_instance_profile")) as [->|Hne].
    + by rewrite !lookup_insert_eq.
    + by rewrite !lookup_insert_ne.
Qed.

Lemma missing_instance_attribute_raises_witness :
  (∀ diff, compare_to_config (delattr sample_instance "image_id") sample_config
             (Some "userdata") ≠ Ok diff)
  ∧ (preamble_ok (delattr sample_instance "image_id") sample_config →
     ∃ msg, compare_to_config (delattr sample_instance "image_id") sample_config
              (Some "userdata") = Raise (AttributeError msg))
  ∧ compare_to_config (setattr (delattr sample_instance "image_id") "image_id" None)
      sample_config (Some "userdata")
    = compare_to_config (setattr (delattr sample_instance "image_id") "image_id" (Some ""))
        sample_config (Some "userdata").
Proof.
  apply (missing_instance_attribute_raises (delattr sample_instance "image_id")
           sample_config (Some "userdata") "image_id").
  - solve_elem.
  - vm_compute. reflexivity.
Defined.

(** C3 as stated fails: with [image_id] absent the call raises, while with
    [image_id] equal to the empty string it returns a diff. *)
Lemma absent_instance_attribute_is_not_empty_string :
  compare_to_config (delattr sample_instance "image_id") sample_config (Some "userdata")
    = Raise (AttributeError "object has no attribute 'image_id'")
  ∧ compare_to_config (setattr sample_instance "image_id" (Some "")) sample_config
      (Some "userdata") = Ok ["ImageId"].
Proof. split; vm_compute; reflexivity. Qed.

(** ** Security groups *)





(** Scenario S3 of the specification. *)
Example security_group_order_run :
  compare_to_config sample_instance_reordered sample_config_reordered (Some "userdata")
  = Ok ["ImageId"].
Proof. vm_compute. reflexivity. Qed.

(** ** [compare_volumes_config] *)

(** C7. With an empty config map and exactly one instance volume the
    volume diff is empty, whatever the volume holds. *)
Theorem empty_config_single_volume (iv : gmap string InstanceVolume)
    (cv : gmap string ConfigVolume) :
  cv = ∅ → size iv = 1%nat → compare_volumes_config iv cv = Ok [].
Proof.
  intros -> Hone. unfold compare_volumes_config.
  rewrite map_size_empty, Hone. done.
Qed.

Lemma empty_config_single_volume_witness :
  compare_volumes_config s4_instance_volumes ∅ = Ok [].
Proof.
  apply (empty_config_single_volume s4_instance_volumes ∅).
  - reflexivity.
  - vm_compute. reflexivity.
Defined.

Lemma special_case_spec (iv : gmap string InstanceVolume) (cv : gmap string ConfigVolume) :
  bool_decide (size cv = 0%nat) && bool_decide (size iv = 1%nat) = true
  ↔ cv = ∅ ∧ size iv = 1%nat.
Proof.
  rewrite andb_true_iff, !bool_decide_eq_true, map_size_empty_iff. done.
Qed.



(** Scenario S4 of the specification. *)
Example volume_device_added_run :
  compare_volumes_config s4_instance_volumes s4_config_volumes = Ok ["DeviceName:sda2"].
Proof. vm_compute. reflexivity. Qed.

(** ** [get_oldest_instance] *)

(** C2, as the code has it. On a non-empty list of candidates
    [get_oldest_instance] returns an element whose [launch_time] is
    minimal, and among the candidates with that [launch_time] the one that
    comes first in the list: every candidate before the victim is strictly
    younger. *)
Theorem get_oldest_instance_first_minimal (instances : list Instance) :
  instances ≠ [] →
  ∃ victim pre post,
    get_oldest_instance instances = Ok victim
    ∧ instances = pre ++ victim :: post
    ∧ (∀ x, x ∈ pre → launch_time victim < launch_time x)
    ∧ (∀ x, x ∈ post → launch_time victim ≤ launch_time x)
    ∧ victim ∈ instances
    ∧ (∀ x, x ∈ instances → launch_time victim ≤ launch_time x).
Proof.
  intros Hne. unfold get_oldest_instance.
  destruct (sorted_by Z.leb launch_time instances) as [|victim rest] eqn:E.
  { by apply sorted_by_nil_inv in E. }
  apply (sorted_by_head Z.leb launch_time) in E as (pre & post & -> & Hpre & Hpost).
  - assert (∀ x, x ∈ pre → launch_time victim < launch_time x) as Hpre'.
    { intros x Hx. specialize (Hpre x Hx). lia. }
    assert (∀ x, x ∈ post → launch_time victim ≤ launch_time x) as Hpost'.
    { intros x Hx. specialize (Hpost x Hx). lia. }
    exists victim, pre, post. repeat (split; [done|]). split.
    + apply elem_of_app. right. apply list_elem_of_here.
    + intros x [Hx|[->|Hx]%elem_of_cons]%elem_of_app.
      * specialize (Hpre' x Hx). lia.
      * lia.
      * auto.
  - intros a b. lia.
  - intros a b c. lia.
Qed.

Lemma get_oldest_instance_first_minimal_witness :
  ∃ victim pre post,
    get_oldest_instance [tied_a; tied_b] = Ok victim
    ∧ [tied_a; tied_b] = pre ++ victim :: post
    ∧ (∀ x, x ∈ pre → launch_time victim < launch_time x)
    ∧ (∀ x, x ∈ post → launch_time victim ≤ launch_time x)
    ∧ victim ∈ [tied_a; tied_b]
    ∧ (∀ x, x ∈ [tied_a; tied_b] → launch_time victim ≤ launch_time x).
Proof.
  apply (get_oldest_instance_first_minimal [tied_a; tied_b]). discriminate.
Defined.

(** C2 as stated fails on the tie: two candidates with the same
    [launch_time] and different ids; whichever is listed first is chosen,
    so no rule on the ids decides. *)
Lemma tie_follows_list_order :
  launch_time tied_a = launch_time tied_b
  ∧ instance_id tied_a ≠ instance_id tied_b
  ∧ [tied_a; tied_b] ≡ₚ [tied_b; tied_a]
  ∧ get_oldest_instance [tied_a; tied_b] = Ok tied_a
  ∧ get_oldest_instance [tied_b; tied_a] = Ok tied_b.
Proof.
  split; [reflexivity|]. split; [discriminate|]. split; [apply Permutation_swap|].
  split; reflexivity.
Qed.

(** Scenario S6 of the specification: the second of the four is chosen. *)
Example oldest_selection_run :
  get_oldest_instance
    [launched_at 1469529000; launched_at 1469338200;
     launched_at 1469530800; launched_at 1469440800]
  = Ok (launched_at 1469338200).
Proof. reflexivity. Qed.

(** The candidates are instances of the group whose diff is not empty. *)
Lemma instances_with_diffs_sound aws config asg_instances candidates :
  instances_with_diffs aws config asg_instances = Ok candidates →
  ∀ x, x ∈ candidates →
    x ∈ asg_instances
    ∧ ∃ diffs, compare_instance_to_config aws x config = Ok diffs ∧ diffs ≠ [].
Proof.
  revert candidates. induction asg_instances as [|i l IH]; intros candidates; simpl.
  - intros [= <-] x Hx. by apply elem_of_nil in Hx.
  - destruct (compare_instance_to_config aws i config) as [diffs|] eqn:Hd; [simpl|done].
    destruct (instances_with_diffs aws config l) as [added|]; [simpl|done].
    intros [= <-] x Hx.
    destruct (bool_decide (length diffs ≠ 0%nat)) eqn:Hb.
    + apply elem_of_cons in Hx as [->|Hx].
      * split; [apply list_elem_of_here|]. exists diffs. split; [done|].
        apply bool_decide_eq_true in Hb. by destruct diffs.
      * destruct (IH added eq_refl x Hx) as [? ?].
        split; [by apply list_elem_of_further|done].
    + destruct (IH added eq_refl x Hx) as [? ?].
      split; [by apply list_elem_of_further|done].
Qed.

(** ** [terminate_instance] *)

(** C4, as the code has it. [terminate_instance] passes the dry-run flag
    to the client; a [ClientError] whose code contains [DryRunOperation] is
    swallowed, whether the flag is set or not; every other exception is
    raised again; a call that returns, returns. *)
Theorem terminate_instance_swallows_dry_run_marker (self : AwsManager) (instance_id : string) :
  (∀ code,
     ec2_terminate_instances (clients self) (_do_dry_run self) [instance_id]
       = Raise (ClientError code) →
     str_in "DryRunOperation" code = true →
     terminate_instance self instance_id = Ok ())
  ∧ (∀ e,
     ec2_terminate_instances (clients self) (_do_dry_run self) [instance_id] = Raise e →
     (∀ code, e = ClientError code → str_in "DryRunOperation" code = false) →
     terminate_instance self instance_id = Raise e)
  ∧ (∀ u,
     ec2_terminate_instances (clients self) (_do_dry_run self) [instance_id] = Ok u →
     terminate_instance self instance_id = Ok ()).
Proof.
  unfold terminate_instance. split; [|split].
  - intros code -> ->. done.
  - intros e -> He. destruct e; try done. by rewrite (He _ eq_refl).
  - by intros u ->.
Qed.

(** C4 as stated fails: with the dry-run flag off, the dry-run marker is
    swallowed all the same. *)
Lemma dry_run_marker_swallowed_without_flag :
  _do_dry_run (mock_aws_manager (Raise (ClientError "DryRunOperation"))) = false
  ∧ ec2_terminate_instances (clients (mock_aws_manager (Raise (ClientError "DryRunOperation"))))
      false ["test_instance_id"] = Raise (ClientError "DryRunOperation")
  ∧ terminate_instance (mock_aws_manager (Raise (ClientError "DryRunOperation")))
      "test_instance_id" = Ok ().
Proof. repeat split. Qed.

(** The other test of the suite: another client error is raised again. *)
Example other_client_error_run :
  terminate_instance (mock_aws_manager (Raise (ClientError "TestError"))) "test_instance_id"
  = Raise (ClientError "TestError").
Proof. reflexivity. Qed.

(** ** [is_ready] *)

(** X16. The plain [InstanceSshManager] does what the docstring says: a boolean
    comes back on every path, [True] exactly when the connection was made
    and the [ls] of the marker exited with 0, and the session is closed. *)
Lemma is_ready_direct remote ip_address self :
  with_tunnel self = false →
  ∃ b self',
    is_ready remote ip_address self = (Ok b, self')
    ∧ session_open self' = false
    ∧ _connected self' = false
    ∧ (b = true ↔ _connected self = false
                  ∧ client_connect (remote ip_address) = None
                  ∧ remote_ls (remote ip_address) = Ok 0).
Proof.
  intros Hdirect.
  unfold is_ready, is_ready_try, connect, _create_connection, sshclient_connect,
    close_connections, base_close_connections.
  rewrite Hdirect.
  destruct (_connected self) eqn:Hc; simpl.
  { rewrite Hdirect. do 2 eexists. split_and!; [done..|]. split; [done|by intros []]. }
  destruct (client_connect (remote ip_address)) as [e|] eqn:Hcc; simpl.
  { rewrite Hdirect. do 2 eexists. split_and!; [done..|].
    split; [done|by intros (_ & ? & _)]. }
  destruct (remote_ls (remote ip_address)) as [exit_code|e] eqn:Hls; simpl.
  - do 2 eexists. split_and!; [done..|]. split.
    + intros Hb%bool_decide_eq_true. by subst.
    + intros (_ & _ & [= ->]). done.
  - do 2 eexists. split_and!; [done..|]. split; [done|by intros (_ & _ & ?)].
Qed.

(** X17. With the bastion tunnel, a probe whose forwarder comes up also returns a
    boolean, and closes the session and the forwarder it started. *)
Lemma is_ready_tunnel_up remote ip_address self :
  with_tunnel self = true →
  _connected self = false →
  tunnel_start (remote ip_address) = None →
  ∃ b self',
    is_ready remote ip_address self = (Ok b, self')
    ∧ session_open self' = false
    ∧ _connected self' = false
    ∧ _ssh_tunnel self' = TunnelNone
    ∧ open_tunnels self' = open_tunnels self
    ∧ (b = true ↔ client_connect (remote ip_address) = None
                  ∧ remote_ls (remote ip_address) = Ok 0).
Proof.
  intros Htunnel Hc Hup.
  unfold is_ready, is_ready_try, connect, _create_connection, sshclient_connect,
    close_connections, base_close_connections.
  rewrite Htunnel, Hc, Hup. simpl.
  destruct (client_connect (remote ip_address)) as [e|] eqn:Hcc; simpl.
  { do 2 eexists. split_and!; [done..|]. split; [done|by intros [? _]]. }
  destruct (remote_ls (remote ip_address)) as [exit_code|e] eqn:Hls; simpl.
  - do 2 eexists. split_and!; [done..|]. split.
    + intros Hb%bool_decide_eq_true. by subst.
    + intros (_ & [= ->]). done.
  - do 2 eexists. split_and!; [done..|]. split; [done|by intros (_ & ?)].
Qed.

(** C5 fails with the bastion tunnel. When the forwarder cannot be started
    and [_ssh_tunnel] holds no forwarder (it was never assigned, or is
    [None] since the last probe), the [finally] block runs
    [self._ssh_tunnel.close()] and its [AttributeError] leaves [is_ready]
    in place of [False]. *)
Theorem is_ready_raises_when_tunnel_fails remote ip_address self e :
  with_tunnel self = true →
  _connected self = false →
  _ssh_tunnel self ≠ TunnelObject →
  tunnel_start (remote ip_address) = Some e →
  ∃ msg self', is_ready remote ip_address self = (Raise (AttributeError msg), self').
Proof.
  intros Htunnel Hc Hslot Hfail.
  unfold is_ready, is_ready_try, connect, _create_connection,
    close_connections, base_close_connections.
  rewrite Htunnel, Hc, Hfail. simpl. rewrite Htunnel.
  destruct (_ssh_tunnel self); [by do 2 eexists..|done].
Qed.

Lemma is_ready_raises_when_tunnel_fails_witness :
  ∃ msg self',
    is_ready unreachable_bastion "10.0.0.7" (new_manager true)
    = (Raise (AttributeError msg), self').
Proof.
  apply (is_ready_raises_when_tunnel_fails unreachable_bastion "10.0.0.7"
           (new_manager true) (OtherError "BaseSSHTunnelForwarderError")).
  - reflexivity.
  - reflexivity.
  - discriminate.
  - reflexivity.
Defined.

(** The failing probe, evaluated. *)
Example unreachable_bastion_run :
  is_ready unreachable_bastion "10.0.0.7" (new_manager true)
  = (Raise (AttributeError "object has no attribute '_ssh_tunnel'"), new_manager true).
Proof. reflexivity. Qed.

Example booted_run :
  is_ready booted "10.0.0.7" (new_manager true)
  = (Ok true, {| with_tunnel := true; _connected := false; _ssh_tunnel := TunnelNone;
                 session_open := false; open_tunnels := 0 |}).
Proof. reflexivity. Qed.

(** * Further properties of the comparator *)

Lemma group_ids_Ok_inv inst ids :
  group_ids inst = Ok ids →
  Forall has_group_id (security_groups inst) ∧ ids = group_id_of <$> security_groups inst.
Proof.
  rewrite group_ids_spec. destruct (decide _) as [H|H]; [|done].
  by intros [= <-].
Qed.

(** X1. [compare_to_config] returns a diff exactly when the configuration
    has [UserData], [SecurityGroups] and the four required keys, the
    instance has the four required attributes and every security group has
    a [GroupId]; otherwise it raises. *)
Theorem compare_to_config_returns_iff_complete inst cfg ud :
  (∃ diff, compare_to_config inst cfg ud = Ok diff) ↔ complete inst cfg.
Proof.
  split; [|apply compare_to_config_returns].
  intros [diff (cu & ids & groups & i1 & c1 & i2 & c2 & i3 & c3 & i4 & c4
               & ? & [? _]%group_ids_Ok_inv & ? & [? ?] & [? ?] & [? ?] & [? ?] & _)
               %compare_to_config_Ok_inv].
  unfold complete, preamble_ok, required_attrs.
  repeat first [apply Forall_nil_2 | apply Forall_cons_2 | split | done | by eexists].
Qed.

(** X2. What [compare_to_config] raises is one of three [KeyError]s
    ([UserData], [GroupId], [SecurityGroups]) or an [AttributeError]. *)
Theorem compare_to_config_exceptions inst cfg ud e :
  compare_to_config inst cfg ud = Raise e →
  e = KeyError "UserData" ∨ e = KeyError "GroupId" ∨ e = KeyError "SecurityGroups"
  ∨ ∃ msg, e = AttributeError msg.
Proof.
  unfold compare_to_config, getitem_SecurityGroups.
  destruct (entries cfg !! "UserData") as [cu|] eqn:Hcu.
  2:{ rewrite (getitem_None _ _ Hcu). simpl. intros [= <-]. by left. }
  rewrite (getitem_Some _ _ _ Hcu). simpl. rewrite group_ids_spec.
  destruct (decide _) as [Hall|Hnot]; simpl.
  2:{ intros [= <-]. right. by left. }
  destruct (SecurityGroups cfg) as [groups|]; simpl.
  2:{ intros [= <-]. right. right. by left. }
  repeat match goal with
  | |- context [check_attr ?i ?c ?l ?a ?k ≫= _] =>
      destruct (check_attr_cases i c l a k) as [[? ->]|[? ->]]; simpl;
        [|intros [= <-]; do 3 right; by eexists]
  end.
  done.
Qed.

Lemma compare_to_config_exceptions_witness :
  KeyError "UserData" = KeyError "UserData"
  ∨ KeyError "UserData" = KeyError "GroupId"
  ∨ KeyError "UserData" = KeyError "SecurityGroups"
  ∨ ∃ msg, KeyError "UserData" = AttributeError msg.
Proof.
  apply (compare_to_config_exceptions sample_instance (delitem sample_config "UserData")
           (Some "userdata") (KeyError "UserData")).
  vm_compute. reflexivity.
Defined.

Lemma tag_if_nil (b : bool) (tag : string) : tag_if b tag = [] ↔ b = false.
Proof. by destruct b. Qed.

Lemma optional_value_present (v : pystr) : optional_value (Some v) = or_empty v.
Proof. done. Qed.

(** X3. The user data is compared as it is, without the [or '']: a
    returned diff has the tag [UserData] exactly when the configuration's
    [UserData] entry is not the instance's user data. *)
Theorem userdata_tag inst cfg ud diff :
  compare_to_config inst cfg ud = Ok diff →
  ("UserData" ∈ diff ↔ entries cfg !! "UserData" ≠ Some ud).
Proof.
  intros (cu & ids & groups & i1 & c1 & i2 & c2 & i3 & c3 & i4 & c4
          & Hcu & _ & _ & _ & _ & _ & _ & ->)%compare_to_config_Ok_inv.
  rewrite Hcu, !elem_of_app, !elem_of_tag_if. split.
  - intros H'; repeat destruct H' as [H'|H']; destruct H' as [H' ?];
      try discriminate. apply bool_decide_eq_true in H'. congruence.
  - intros H'. do 6 left. split; [|done]. apply bool_decide_eq_true. congruence.
Qed.

Lemma userdata_tag_witness :
  "UserData" ∈ ["ImageId"] ↔ entries sample_config !! "UserData" ≠ Some (Some "userdata").
Proof.
  apply (userdata_tag sample_instance sample_config (Some "userdata") ["ImageId"]).
  vm_compute. reflexivity.
Defined.

(** X4. For [IamInstanceProfile] an absent attribute or key, [None] and
    the empty string all read as the empty string, and a returned diff has
    the tag exactly when the two values so read differ: an empty
    configuration value does not suppress it. *)
Theorem iam_instance_profile_tag inst cfg ud diff :
  compare_to_config inst cfg ud = Ok diff →
  ("IamInstanceProfile" ∈ diff
   ↔ optional_value (attrs inst !! "iam_instance_profile")
     ≠ optional_value (entries cfg !! "IamInstanceProfile")).
Proof.
  intros (cu & ids & groups & i1 & c1 & i2 & c2 & i3 & c3 & i4 & c4
          & _ & _ & _ & _ & _ & _ & _ & ->)%compare_to_config_Ok_inv.
  rewrite !elem_of_app, !elem_of_tag_if. unfold optional_value. split.
  - intros H'; repeat destruct H' as [H'|H']; destruct H' as [H' ?];
      try discriminate. by apply bool_decide_eq_true in H'.
  - intros H'. right. split; [|done]. by apply bool_decide_eq_true.
Qed.

Lemma iam_instance_profile_tag_witness :
  "IamInstanceProfile" ∈ ["ImageId"]
  ↔ optional_value (attrs sample_instance !! "iam_instance_profile")
    ≠ optional_value (entries sample_config !! "IamInstanceProfile").
Proof.
  apply (iam_instance_profile_tag sample_instance sample_config (Some "userdata") ["ImageId"]).
  vm_compute. reflexivity.
Defined.

Lemma tag_if_sublist (b : bool) (tag : string) : tag_if b tag `sublist_of` [tag].
Proof. destruct b; simpl; [done|]. apply sublist_nil_l. Qed.

(** X5. The tags of a returned diff come in the fixed order [UserData],
    [SecurityGroups], [ImageId], [InstanceType], [KernelId], [KeyName],
    [IamInstanceProfile], each at most once. *)
Theorem diff_follows_tag_order inst cfg ud diff :
  compare_to_config inst cfg ud = Ok diff → diff `sublist_of` tag_order.
Proof.
  intros (cu & ids & groups & i1 & c1 & i2 & c2 & i3 & c3 & i4 & c4
          & _ & _ & _ & _ & _ & _ & _ & ->)%compare_to_config_Ok_inv.
  change tag_order with
    (((((((["UserData"] ++ ["SecurityGroups"]) ++ ["ImageId"]) ++ ["InstanceType"])
         ++ ["KernelId"]) ++ ["KeyName"]) ++ ["IamInstanceProfile"])).
  repeat apply sublist_app; apply tag_if_sublist.
Qed.

Lemma diff_follows_tag_order_witness : ["ImageId"] `sublist_of` tag_order.
Proof.
  apply (diff_follows_tag_order sample_instance sample_config (Some "userdata") ["ImageId"]).
  vm_compute. reflexivity.
Defined.

Lemma drifted_false iv cv :
  drifted iv cv = false ↔ or_empty cv = "" ∨ or_empty iv = or_empty cv.
Proof.
  unfold drifted. rewrite andb_false_iff, !bool_decide_eq_false.
  split; intros [H|H]; first [left; by apply dec_stable | right; by apply dec_stable
                              | left; by intros ? | right; by intros ?].
Qed.

(** X6. A returned diff is empty exactly when the user data are the same,
    the security groups are the same up to order, each required entry of
    the configuration is empty or equal to the instance's attribute, and
    the instance profiles read the same. *)
Theorem empty_diff_iff inst cfg ud diff :
  compare_to_config inst cfg ud = Ok diff →
  (diff = [] ↔
     entries cfg !! "UserData" = Some ud
     ∧ (group_id_of <$> security_groups inst) ≡ₚ default [] (SecurityGroups cfg)
     ∧ (∀ ia ck, (ia, ck) ∈ required_attrs →
          optional_value (entries cfg !! ck) = ""
          ∨ optional_value (attrs inst !! ia) = optional_value (entries cfg !! ck))
     ∧ optional_value (attrs inst !! "iam_instance_profile")
       = optional_value (entries cfg !! "IamInstanceProfile")).
Proof.
  intros (cu & ids & groups & i1 & c1 & i2 & c2 & i3 & c3 & i4 & c4
          & Hcu & [_ ->]%group_ids_Ok_inv & Hg & [Hi1 Hc1] & [Hi2 Hc2] & [Hi3 Hc3]
          & [Hi4 Hc4] & ->)%compare_to_config_Ok_inv.
  rewrite Hcu, Hg. simpl.
  repeat rewrite app_nil. rewrite !tag_if_nil, !bool_decide_eq_false, !drifted_false.
  rewrite sorted_eq_iff_Permutation.
  split.
  - intros ((((((Hud & Hsg) & H1) & H2) & H3) & H4) & Hiam).
    apply dec_stable in Hud, Hsg, Hiam. subst cu.
    split; [done|]. split; [done|]. split; [|done].
    intros ia ck Hin. unfold required_attrs in Hin.
    repeat (apply elem_of_cons in Hin as [[= -> ->]|Hin]);
      [| | | |by apply elem_of_nil in Hin].
    + by rewrite Hi1, Hc1.
    + by rewrite Hi2, Hc2.
    + by rewrite Hi3, Hc3.
    + by rewrite Hi4, Hc4.
  - intros ([= ->] & Hsg & Hreq & Hiam).
    pose proof (Hreq "image_id" "ImageId" ltac:(unfold required_attrs; solve_elem)) as H1.
    pose proof (Hreq "instance_type" "InstanceType"
                  ltac:(unfold required_attrs; solve_elem)) as H2.
    pose proof (Hreq "kernel_id" "KernelId" ltac:(unfold required_attrs; solve_elem)) as H3.
    pose proof (Hreq "key_name" "KeyName" ltac:(unfold required_attrs; solve_elem)) as H4.
    rewrite Hi1, Hc1 in H1. rewrite Hi2, Hc2 in H2.
    rewrite Hi3, Hc3 in H3. rewrite Hi4, Hc4 in H4.
    repeat split; try done; by intros ?.
Qed.

Lemma empty_diff_iff_witness :
  ["ImageId"] = [] ↔
     entries sample_config !! "UserData" = Some (Some "userdata")
     ∧ (group_id_of <$> security_groups sample_instance)
       ≡ₚ default [] (SecurityGroups sample_config)
     ∧ (∀ ia ck, (ia, ck) ∈ required_attrs →
          optional_value (entries sample_config !! ck) = ""
          ∨ optional_value (attrs sample_instance !! ia)
            = optional_value (entries sample_config !! ck))
     ∧ optional_value (attrs sample_instance !! "iam_instance_profile")
       = optional_value (entries sample_config !! "IamInstanceProfile").
Proof.
  apply (empty_diff_iff sample_instance sample_config (Some "userdata") ["ImageId"]).
  vm_compute. reflexivity.
Defined.

Lemma drifted_same (v : pystr) : drifted v v = false.
Proof. apply drifted_false. by right. Qed.

(** X7. Round trip: an instance that has its four required attributes and
    whose security groups all have a [GroupId] shows no difference from the
    launch configuration copied from it. *)
Theorem config_of_round_trip inst ud :
  Forall has_group_id (security_groups inst) →
  (∀ ia, ia ∈ required_attrs.*1 → is_Some (attrs inst !! ia)) →
  compare_to_config inst (config_of inst ud) ud = Ok [].
Proof.
  intros Hsg Hattrs.
  destruct (Hattrs "image_id") as [i1 Hi1]; [solve_elem|].
  destruct (Hattrs "instance_type") as [i2 Hi2]; [solve_elem|].
  destruct (Hattrs "kernel_id") as [i3 Hi3]; [solve_elem|].
  destruct (Hattrs "key_name") as [i4 Hi4]; [solve_elem|].
  assert (∀ key, entries (config_of inst ud) !! key
                 = <["UserData" := ud]>
                   (<["ImageId" := i1]> (<["InstanceType" := i2]>
                   (<["KernelId" := i3]> (<["KeyName" := i4]>
                   (<["IamInstanceProfile" :=
                        default None (attrs inst !! "iam_instance_profile")]>
                      (∅ : gmap string pystr)))))) !! key)
    as Hentries.
  { intros key. unfold config_of, pystr in *. cbn [entries].
    by rewrite Hi1, Hi2, Hi3, Hi4. }
  unfold compare_to_config, getitem_SecurityGroups.
  rewrite (getitem_Some _ _ ud) by (rewrite Hentries; apply lookup_insert_eq).
  rewrite (group_ids_Ok _ Hsg).
  cbn [mbind result_bind SecurityGroups config_of].
  rewrite (bool_decide_eq_false_2 (ud ≠ ud)) by (intros Hne; by apply Hne).
  rewrite (bool_decide_eq_false_2 (sorted _ ≠ sorted _)) by (intros Hne; by apply Hne).
  rewrite (check_attr_Ok _ _ _ _ _ i1 i1), drifted_same; [|done|].
  2:{ rewrite Hentries, lookup_insert_ne by done. apply lookup_insert_eq. }
  cbn [mbind result_bind tag_if app].
  rewrite (check_attr_Ok _ _ _ _ _ i2 i2), drifted_same; [|done|].
  2:{ rewrite Hentries, !lookup_insert_ne by done. apply lookup_insert_eq. }
  cbn [mbind result_bind tag_if app].
  rewrite (check_attr_Ok _ _ _ _ _ i3 i3), drifted_same; [|done|].
  2:{ rewrite Hentries, !lookup_insert_ne by done. apply lookup_insert_eq. }
  cbn [mbind result_bind tag_if app].
  rewrite (check_attr_Ok _ _ _ _ _ i4 i4), drifted_same; [|done|].
  2:{ rewrite Hentries, !lookup_insert_ne by done. apply lookup_insert_eq. }
  cbn [mbind result_bind tag_if app].
  rewrite Hentries, !lookup_insert_ne by done. rewrite lookup_insert_eq.
  rewrite bool_decide_eq_false_2; [done|].
  intros Hne. apply Hne. by destruct (attrs inst !! "iam_instance_profile") as [[?|]|].
Qed.

Lemma config_of_round_trip_witness :
  compare_to_config sample_instance (config_of sample_instance (Some "userdata"))
    (Some "userdata") = Ok [].
Proof.
  apply (config_of_round_trip sample_instance (Some "userdata")).
  - repeat first [apply Forall_nil_2 | apply Forall_cons_2 | by (eexists; vm_compute)].
  - intros ia Hin. simpl in Hin.
    repeat (apply elem_of_cons in Hin as [->|Hin]);
      [by (eexists; vm_compute)..|by apply elem_of_nil in Hin].
Defined.

(** * Further properties of the volume comparison *)

(** X8. With no volume in the configuration the diff is empty for an
    instance with at most one volume (also with none), and otherwise
    reports every device of the instance, in sorted order. *)
Theorem empty_config_volumes (iv : gmap string InstanceVolume) :
  compare_volumes_config iv ∅ =
    Ok (if decide (size iv ≤ 1)%nat then []
        else device_name_tag <$> sorted (elements (dom iv))).
Proof.
  unfold compare_volumes_config. rewrite map_size_empty.
  rewrite bool_decide_eq_true_2 by done. simpl.
  destruct (decide (size iv = 1%nat)) as [Hone|Hone].
  { rewrite bool_decide_eq_true_2 by done. rewrite decide_True by lia. done. }
  rewrite bool_decide_eq_false_2 by done.
  assert (symmetric_difference (dom iv) (dom (∅ : gmap string ConfigVolume)) = dom iv)
    as ->.
  { unfold symmetric_difference. rewrite dom_empty_L.
    apply leibniz_equiv. intros x. rewrite elem_of_union, !elem_of_difference.
    split; [intros [[? _]|[?%elem_of_empty _]]; done|].
    intros ?. left. split; [done|]. by intros ?%elem_of_empty. }
  rewrite size_dom.
  destruct (decide (size iv = 0%nat)) as [Hzero|Hzero].
  - rewrite bool_decide_eq_false_2 by (intros Hne; by apply Hne).
    rewrite decide_True by lia.
    apply map_size_empty_iff in Hzero as ->. by rewrite map_to_list_empty.
  - rewrite bool_decide_eq_true_2 by done. rewrite decide_False by lia. done.
Qed.

Lemma compare_volume_Ok cv cl d v c ebs att rest :
  cv !! d = Some c → Ebs c = Some ebs → Attachments v = att :: rest →
  compare_volume cv cl (d, v) = Ok (cl ++ volume_tags d v ebs att).
Proof.
  intros Hc He Ha. unfold compare_volume, getitem_Ebs, first_attachment, volume_tags, tag_if.
  rewrite (getitem_Some _ _ _ Hc). simpl. rewrite He. simpl. rewrite Ha. simpl.
  repeat match goal with |- context [bool_decide ?P] => destruct (bool_decide P) end;
    simpl; by rewrite <- ?app_assoc, ?app_nil_r.
Qed.

Lemma compare_volume_no_Ebs cv cl d v c :
  cv !! d = Some c → Ebs c = None →
  compare_volume cv cl (d, v) = Raise (KeyError "Ebs").
Proof.
  intros Hc He. unfold compare_volume, getitem_Ebs.
  rewrite (getitem_Some _ _ _ Hc). simpl. by rewrite He.
Qed.

Lemma compare_volume_no_attachment cv cl d v c ebs :
  cv !! d = Some c → Ebs c = Some ebs → Attachments v = [] →
  compare_volume cv cl (d, v) = Raise IndexError.
Proof.
  intros Hc He Ha. unfold compare_volume, getitem_Ebs, first_attachment.
  rewrite (getitem_Some _ _ _ Hc). simpl. rewrite He. simpl. by rewrite Ha.
Qed.

(** What the loop over the items returns when every item finds its [Ebs]
    entry and its first attachment. *)
Lemma compare_volumes_loop_Ok cv items :
  (∀ d v, (d, v) ∈ items →
     ∃ c ebs att rest, cv !! d = Some c ∧ Ebs c = Some ebs ∧ Attachments v = att :: rest) →
  ∀ cl, ∃ tags,
    compare_volumes_loop cv cl items = Ok (cl ++ tags)
    ∧ ∀ t, t ∈ tags ↔
        ∃ d v c ebs att rest,
          (d, v) ∈ items ∧ cv !! d = Some c ∧ Ebs c = Some ebs
          ∧ Attachments v = att :: rest ∧ t ∈ volume_tags d v ebs att.
Proof.
  induction items as [|[d v] items IH]; intros Hitems cl.
  - exists []. split; [by rewrite app_nil_r|].
    intros t. split; [by intros ?%elem_of_nil|].
    by intros (? & ? & ? & ? & ? & ? & ?%elem_of_nil & _).
  - destruct (Hitems d v) as (c & ebs & att & rest & Hc & He & Ha); [apply list_elem_of_here|].
    destruct (IH (λ d1 v1 H, Hitems d1 v1 (list_elem_of_further _ _ _ H))
                 (cl ++ volume_tags d v ebs att)) as (tags & Hrun & Htags).
    exists (volume_tags d v ebs att ++ tags). split.
    + cbn [compare_volumes_loop].
      rewrite (compare_volume_Ok _ _ _ _ _ _ _ _ Hc He Ha).
      cbn [mbind result_bind]. by rewrite Hrun, app_assoc.
    + intros t. rewrite elem_of_app, Htags. split.
      * intros [Ht|(d1 & v1 & c1 & ebs1 & att1 & rest1 & Hin & ?)].
        -- exists d, v, c, ebs, att, rest. split; [apply list_elem_of_here|done].
        -- exists d1, v1, c1, ebs1, att1, rest1.
           split; [by apply list_elem_of_further|done].
      * intros (d1 & v1 & c1 & ebs1 & att1 & rest1 & Hin & Hc1 & He1 & Ha1 & Ht).
        apply elem_of_cons in Hin as [[= -> ->]|Hin].
        -- left. congruence.
        -- right. by exists d1, v1, c1, ebs1, att1, rest1.
Qed.

Lemma same_devices_reach_loop (iv : gmap string InstanceVolume)
    (cv : gmap string ConfigVolume) :
  dom iv = dom cv →
  compare_volumes_config iv cv = compare_volumes_loop cv [] (map_to_list iv).
Proof.
  intros Hdom. unfold compare_volumes_config.
  destruct (_ && _) eqn:Hs.
  { apply special_case_spec in Hs as [-> Hone].
    rewrite dom_empty_L in Hdom. apply dom_empty_inv_L in Hdom as ->.
    by rewrite map_size_empty in Hone. }
  assert (symmetric_difference (dom iv) (dom cv) = ∅) as ->.
  { unfold symmetric_difference. rewrite Hdom.
    apply leibniz_equiv. intros x. rewrite elem_of_union, !elem_of_difference.
    split; [by intros [[? ?]|[? ?]]|by intros ?%elem_of_empty]. }
  by rewrite bool_decide_eq_false_2 by (intros Hne; by apply Hne).
Qed.

Lemma volume_tags_nil d v ebs att :
  volume_tags d v ebs att = [] ↔
    VolumeType v = ebs_VolumeType ebs
    ∧ Size v = ebs_VolumeSize ebs
    ∧ DeleteOnTermination att = ebs_DeleteOnTermination ebs.
Proof.
  unfold volume_tags. rewrite !app_nil, !tag_if_nil, !bool_decide_eq_false.
  split.
  - intros [[H1 H2] H3]. apply dec_stable in H1, H2, H3. done.
  - intros (H1 & H2 & H3). repeat split; by intros ?.
Qed.

Lemma head_cons_iff {A} (l : list A) (x : A) : head l = Some x ↔ ∃ rest, l = x :: rest.
Proof.
  destruct l as [|y l]; simpl.
  - split; [done|by intros [? ?]].
  - split; [intros [= ->]; by eexists|by intros [? [= -> _]]].
Qed.

(** X9. When the instance and the configuration have the same devices,
    every configured volume has its [Ebs] entry and every instance volume
    an attachment, the volume diff consists of the per-device tags for
    [VolumeType], [Size] (against [VolumeSize]) and [DeleteOnTermination]
    (of the first attachment) that differ, and no others; it is empty
    exactly when the three agree on every device. *)
Theorem volume_attribute_differences (iv : gmap string InstanceVolume)
    (cv : gmap string ConfigVolume) :
  dom iv = dom cv →
  (∀ d c, cv !! d = Some c → is_Some (Ebs c)) →
  (∀ d v, iv !! d = Some v → Attachments v ≠ []) →
  ∃ tags, compare_volumes_config iv cv = Ok tags
    ∧ (∀ t, t ∈ tags ↔
         ∃ d v c ebs att,
           iv !! d = Some v ∧ cv !! d = Some c ∧ Ebs c = Some ebs
           ∧ head (Attachments v) = Some att ∧ t ∈ volume_tags d v ebs att)
    ∧ (tags = [] ↔
         ∀ d v c ebs att,
           iv !! d = Some v → cv !! d = Some c → Ebs c = Some ebs →
           head (Attachments v) = Some att →
           VolumeType v = ebs_VolumeType ebs
           ∧ Size v = ebs_VolumeSize ebs
           ∧ DeleteOnTermination att = ebs_DeleteOnTermination ebs).
Proof.
  intros Hdom Hebs Hatt. rewrite (same_devices_reach_loop _ _ Hdom).
  destruct (compare_volumes_loop_Ok cv (map_to_list iv)) with (cl := @nil string)
    as (tags & Hrun & Htags).
  { intros d v Hv%elem_of_map_to_list.
    assert (is_Some (cv !! d)) as [c Hc].
    { apply elem_of_dom. rewrite <- Hdom. apply elem_of_dom. by eexists. }
    destruct (Hebs d c Hc) as [ebs He].
    destruct (Attachments v) as [|att rest] eqn:Ha; [by destruct (Hatt d v Hv)|].
    by exists c, ebs, att, rest. }
  exists tags. split; [done|].
  assert (∀ t, t ∈ tags ↔
            ∃ d v c ebs att,
              iv !! d = Some v ∧ cv !! d = Some c ∧ Ebs c = Some ebs
              ∧ head (Attachments v) = Some att ∧ t ∈ volume_tags d v ebs att) as Hmem.
  { intros t. rewrite Htags. split.
    - intros (d & v & c & ebs & att & rest & Hin%elem_of_map_to_list & ? & ? & Ha & ?).
      exists d, v, c, ebs, att. rewrite Ha. done.
    - intros (d & v & c & ebs & att & Hin & ? & ? & [rest Ha]%head_cons_iff & ?).
      exists d, v, c, ebs, att, rest. by rewrite elem_of_map_to_list. }
  split; [done|]. split.
  - intros -> d v c ebs att Hv Hc He Ha. apply (volume_tags_nil d).
    destruct (volume_tags d v ebs att) as [|t ts] eqn:Ht; [done|].
    assert (t ∈ @nil string) as Hbad; [|by apply elem_of_nil in Hbad].
    apply Hmem. exists d, v, c, ebs, att. rewrite Ht.
    repeat split; try done. apply list_elem_of_here.
  - intros Hall. apply elem_of_nil_inv. intros t (d & v & c & ebs & att & Hv & Hc & He & Ha & Ht)%Hmem.
    rewrite (proj2 (volume_tags_nil d v ebs att) (Hall d v c ebs att Hv Hc He Ha)) in Ht.
    by apply elem_of_nil in Ht.
Qed.

Lemma compare_volumes_loop_raises cv items :
  (∀ d v, (d, v) ∈ items → is_Some (cv !! d)) →
  (∃ d v c, (d, v) ∈ items ∧ cv !! d = Some c ∧ Ebs c = None) →
  ∀ cl, compare_volumes_loop cv cl items = Raise (KeyError "Ebs")
        ∨ compare_volumes_loop cv cl items = Raise IndexError.
Proof.
  induction items as [|[d0 v0] items IH]; intros Hpresent (d & v & c & Hin & Hc & He) cl.
  { by apply elem_of_nil in Hin. }
  cbn [compare_volumes_loop].
  destruct (Hpresent d0 v0) as [c0 Hc0]; [apply list_elem_of_here|].
  destruct (Ebs c0) as [ebs0|] eqn:He0.
  2:{ rewrite (compare_volume_no_Ebs cv cl d0 v0 c0 Hc0 He0). by left. }
  destruct (Attachments v0) as [|att0 rest0] eqn:Ha0.
  { rewrite (compare_volume_no_attachment cv cl d0 v0 c0 ebs0 Hc0 He0 Ha0). by right. }
  rewrite (compare_volume_Ok _ _ _ _ _ _ _ _ Hc0 He0 Ha0). cbn [mbind result_bind].
  apply IH.
  - intros d1 v1 H1. apply (Hpresent d1 v1). by apply list_elem_of_further.
  - apply elem_of_cons in Hin as [[= -> ->]|Hin]; [congruence|].
    by exists d, v, c.
Qed.

(** X10. When the instance and the configuration have the same devices and
    one configured mapping has no [Ebs] entry, [compare_volumes_config]
    returns no diff: it raises the [KeyError] for [Ebs], unless the
    [IndexError] of a volume without attachment comes first. *)
Theorem mapping_without_Ebs_raises (iv : gmap string InstanceVolume)
    (cv : gmap string ConfigVolume) d c :
  dom iv = dom cv →
  cv !! d = Some c →
  Ebs c = None →
  compare_volumes_config iv cv = Raise (KeyError "Ebs")
  ∨ compare_volumes_config iv cv = Raise IndexError.
Proof.
  intros Hdom Hc He. rewrite (same_devices_reach_loop _ _ Hdom).
  apply compare_volumes_loop_raises.
  - intros d1 v1 Hv%elem_of_map_to_list.
    apply elem_of_dom. rewrite <- Hdom. apply elem_of_dom. by eexists.
  - assert (is_Some (iv !! d)) as [v Hv].
    { apply elem_of_dom. rewrite Hdom. apply elem_of_dom. by eexists. }
    exists d, v, c. by rewrite elem_of_map_to_list.
Qed.

Lemma volume_attribute_differences_witness :
  ∃ tags, compare_volumes_config s5_instance_volumes s5_config_volumes = Ok tags
    ∧ (∀ t, t ∈ tags ↔
         ∃ d v c ebs att,
           s5_instance_volumes !! d = Some v ∧ s5_config_volumes !! d = Some c
           ∧ Ebs c = Some ebs
           ∧ head (Attachments v) = Some att ∧ t ∈ volume_tags d v ebs att)
    ∧ (tags = [] ↔
         ∀ d v c ebs att,
           s5_instance_volumes !! d = Some v → s5_config_volumes !! d = Some c →
           Ebs c = Some ebs →
           head (Attachments v) = Some att →
           VolumeType v = ebs_VolumeType ebs
           ∧ Size v = ebs_VolumeSize ebs
           ∧ DeleteOnTermination att = ebs_DeleteOnTermination ebs).
Proof.
  apply (volume_attribute_differences s5_instance_volumes s5_config_volumes).
  - vm_compute. reflexivity.
  - intros d c H. unfold s5_config_volumes in H.
    apply lookup_insert_Some in H as [[_ <-]|[_ H]]; [by eexists|].
    apply lookup_insert_Some in H as [[_ <-]|[_ H]]; [by eexists|].
    by rewrite lookup_empty in H.
  - intros d v H. unfold s5_instance_volumes in H.
    apply lookup_insert_Some in H as [[_ <-]|[_ H]]; [discriminate|].
    apply lookup_insert_Some in H as [[_ <-]|[_ H]]; [discriminate|].
    by rewrite lookup_empty in H.
Defined.

(** Scenario S5 of the specification, evaluated. *)
Example volume_attributes_run :
  compare_volumes_config s5_instance_volumes s5_config_volumes
  = Ok ["sda2.BlockDeviceMappings.Ebs.VolumeType";
        "sda2.BlockDeviceMappings.Ebs.Size";
        "sda2.BlockDeviceMappings.Ebs.DeleteOnTermination"].
Proof. vm_compute. reflexivity. Qed.

Lemma mapping_without_Ebs_raises_witness :
  compare_volumes_config s4_instance_volumes ephemeral_config_volumes
    = Raise (KeyError "Ebs")
  ∨ compare_volumes_config s4_instance_volumes ephemeral_config_volumes
    = Raise IndexError.
Proof.
  apply (mapping_without_Ebs_raises s4_instance_volumes ephemeral_config_volumes
           "sda1" (ephemeral_config_volume "sda1")).
  - vm_compute. reflexivity.
  - vm_compute. reflexivity.
  - reflexivity.
Defined.

(** * The device dictionaries *)

Lemma last_cons_from_option {A} (x : A) (l : list A) :
  last (x :: l) = Some (default x (last l)).
Proof.
  revert x. induction l as [|y l IH]; intros x; [done|].
  by rewrite last_cons_cons, IH.
Qed.

Lemma foldl_insert_lookup_last {V} (key : V → string) (l : list V)
    (m : gmap string V) (d : string) :
  foldl (λ acc v, <[key v := v]> acc) m l !! d
  = match last (filter (λ v, key v = d) l) with
    | Some v => Some v
    | None => m !! d
    end.
Proof.
  revert m. induction l as [|x l IH]; intros m; [done|].
  cbn [foldl]. rewrite IH.
  destruct (decide (key x = d)) as [Hk|Hk].
  - rewrite filter_cons_True by done. rewrite last_cons_from_option.
    destruct (last (filter (λ v, key v = d) l)); [done|].
    simpl. rewrite <- Hk. apply lookup_insert_eq.
  - rewrite filter_cons_False by done.
    destruct (last (filter (λ v, key v = d) l)); [done|].
    by apply lookup_insert_ne.
Qed.

(** X11. In the dictionary built from the block device mappings, a device
    name is mapped to the last mapping of the list that bears it, and a
    name that no mapping bears is absent. *)
Theorem config_volumes_to_dict_lookup (mappings : list ConfigVolume) (d : string) :
  config_volumes_to_dict mappings !! d
  = last (filter (λ v, DeviceName v = d) mappings).
Proof.
  unfold config_volumes_to_dict. rewrite (foldl_insert_lookup_last DeviceName).
  rewrite lookup_empty. by destruct (last _).
Qed.

Lemma get_volumes_fold_raise (e : exn) (vols : list InstanceVolume) :
  foldl (λ (acc : result (gmap string InstanceVolume)) current_volume,
           d ← acc;
           att ← first_attachment current_volume;
           Ok (<[Device att := current_volume]> d))
        (Raise e) vols = Raise e.
Proof. induction vols as [|v vols IH]; [done|]. cbn [foldl]. apply IH. Qed.

Lemma get_volumes_fold_spec (vols : list InstanceVolume) (m : gmap string InstanceVolume) :
  foldl (λ (acc : result (gmap string InstanceVolume)) current_volume,
           d ← acc;
           att ← first_attachment current_volume;
           Ok (<[Device att := current_volume]> d))
        (Ok m) vols
  = if decide (Forall (λ v, Attachments v ≠ []) vols)
    then Ok (foldl (λ acc v, <[default "" (attached_device v) := v]> acc) m vols)
    else Raise IndexError.
Proof.
  pose proof get_volumes_fold_raise as Hraise.
  set (f := λ (acc : result (gmap string InstanceVolume)) current_volume,
              d ← acc;
              att ← first_attachment current_volume;
              Ok (<[Device att := current_volume]> d)) in *.
  revert m. induction vols as [|v vols IH]; intros m.
  { by rewrite decide_True by constructor. }
  cbn [foldl].
  destruct (Attachments v) as [|att rest] eqn:Ha.
  - assert (f (Ok m) v = Raise IndexError) as ->.
    { unfold f, first_attachment. by rewrite Ha. }
    rewrite Hraise.
    rewrite decide_False; [done|]. by intros [? _]%Forall_cons.
  - assert (f (Ok m) v = Ok (<[Device att := v]> m)) as ->.
    { unfold f, first_attachment. by rewrite Ha. }
    rewrite IH.
    assert (default "" (attached_device v) = Device att) as ->.
    { unfold attached_device. by rewrite Ha. }
    destruct (decide (Forall _ vols)) as [Hall|Hnot].
    + rewrite decide_True; [done|]. constructor; [by rewrite Ha|done].
    + rewrite decide_False; [done|]. by intros [_ ?]%Forall_cons.
Qed.

(** X12. When the volumes of an instance are described,
    [get_volumes_dict_for_instance] raises [IndexError] if one of them has
    no attachment; otherwise it returns a dictionary in which a device is
    mapped to the last described volume whose first attachment is on that
    device. *)
Theorem get_volumes_dict_for_instance_spec (self : AwsManager) (instance : Instance)
    (vols : list InstanceVolume) :
  ec2_describe_volumes (clients self) instance = Ok vols →
  (¬ Forall (λ v, Attachments v ≠ []) vols →
   get_volumes_dict_for_instance self instance = Raise IndexError)
  ∧ (Forall (λ v, Attachments v ≠ []) vols →
     ∃ dict, get_volumes_dict_for_instance self instance = Ok dict
       ∧ ∀ d, dict !! d = last (filter (λ v, attached_device v = Some d) vols)).
Proof.
  intros Hdesc. unfold get_volumes_dict_for_instance. rewrite Hdesc.
  cbn [mbind result_bind]. rewrite get_volumes_fold_spec. split.
  - intros Hnot. by rewrite decide_False.
  - intros Hall. rewrite decide_True by done. eexists. split; [done|].
    intros d.
    rewrite (foldl_insert_lookup_last (λ v, default "" (attached_device v))).
    rewrite lookup_empty.
    assert (filter (λ v, default "" (attached_device v) = d) vols
            = filter (λ v, attached_device v = Some d) vols) as ->.
    { clear Hdesc. induction Hall as [|v vols Hv Hall IH]; [done|].
      assert (default "" (attached_device v) = d ↔ attached_device v = Some d) as Hiff.
      { unfold attached_device. destruct (Attachments v); [done|]. simpl.
        split; [by intros ->|by intros [= ->]]. }
      destruct (decide (attached_device v = Some d)) as [Hd|Hd].
      - rewrite !filter_cons_True by (done || by apply Hiff). by rewrite IH.
      - rewrite !filter_cons_False by (done || by rewrite Hiff). by rewrite IH. }
    by destruct (last _).
Qed.

Lemma get_volumes_dict_for_instance_spec_witness :
  (¬ Forall (λ v, Attachments v ≠ []) [sample_volume] →
   get_volumes_dict_for_instance
     {| _do_dry_run := false;
        clients := {| ec2_terminate_instances := λ _ _, Ok ();
                      ec2_userdata := λ _, Ok (Some "userdata");
                      ec2_describe_volumes := λ _, Ok [sample_volume];
                      ec2_running_instances := λ _, Ok [] |} |}
     sample_instance = Raise IndexError)
  ∧ (Forall (λ v, Attachments v ≠ []) [sample_volume] →
     ∃ dict, get_volumes_dict_for_instance
               {| _do_dry_run := false;
                  clients := {| ec2_terminate_instances := λ _ _, Ok ();
                                ec2_userdata := λ _, Ok (Some "userdata");
                                ec2_describe_volumes := λ _, Ok [sample_volume];
                                ec2_running_instances := λ _, Ok [] |} |}
               sample_instance = Ok dict
       ∧ ∀ d, dict !! d
              = last (filter (λ v, attached_device v = Some d) [sample_volume])).
Proof.
  apply (get_volumes_dict_for_instance_spec
           {| _do_dry_run := false;
              clients := {| ec2_terminate_instances := λ _ _, Ok ();
                            ec2_userdata := λ _, Ok (Some "userdata");
                            ec2_describe_volumes := λ _, Ok [sample_volume];
                            ec2_running_instances := λ _, Ok [] |} |}
           sample_instance [sample_volume]).
  reflexivity.
Defined.

(** * Terminating, finding the group *)

Lemma prefix_spec (n h : string) :
  String.prefix n h = true ↔ ∃ post, h = n +:+ post.
Proof.
  revert h. induction n as [|a n IH]; intros h.
  - destruct h; simpl; (split; [intros _; by eexists|done]).
  - destruct h as [|b h]; simpl.
    + split; [done|by intros [? ?]].
    + destruct (Ascii.ascii_dec a b) as [->|Hne].
      * rewrite IH. split; intros [post H]; exists post.
        -- simpl. by rewrite H.
        -- simpl in H. by injection H.
      * split; [done|]. intros [post H]. simpl in H. by injection H.
Qed.

Lemma str_in_spec (n h : string) :
  str_in n h = true ↔ ∃ pre post, h = pre +:+ n +:+ post.
Proof.
  induction h as [|a h IH]; cbn [str_in].
  - rewrite orb_false_r, prefix_spec. split.
    + intros [post ->]. by exists "", post.
    + intros (pre & post & H). destruct pre; [by exists post|done].
  - rewrite orb_true_iff, prefix_spec, IH. split.
    + intros [[post ->]|(pre & post & ->)].
      * by exists "", post.
      * by exists (String a pre), post.
    + intros ([|b pre] & post & H).
      * left. by exists post.
      * right. simpl in H. injection H as -> ->. by exists pre, post.
Qed.

(** X13. A [ClientError] from the client is swallowed by
    [terminate_instance] exactly when [DryRunOperation] occurs somewhere in
    its code, as a substring; otherwise that same error is raised. *)
Theorem terminate_instance_substring (self : AwsManager) (instance_id code : string) :
  ec2_terminate_instances (clients self) (_do_dry_run self) [instance_id]
    = Raise (ClientError code) →
  (terminate_instance self instance_id = Ok ()
   ↔ ∃ pre post, code = pre +:+ "DryRunOperation" +:+ post)
  ∧ (terminate_instance self instance_id = Raise (ClientError code)
     ↔ ¬ ∃ pre post, code = pre +:+ "DryRunOperation" +:+ post).
Proof.
  intros Hout. unfold terminate_instance. rewrite Hout.
  rewrite <- str_in_spec. destruct (str_in "DryRunOperation" code); simpl.
  - split; (split; [done|]); intros H; [done|by destruct H].
  - split; (split; [done|]); intros H; done.
Qed.

Lemma terminate_instance_substring_witness :
  (terminate_instance (mock_aws_manager (Raise (ClientError "DryRunOperation")))
     "test_instance_id" = Ok ()
   ↔ ∃ pre post, "DryRunOperation" = pre +:+ "DryRunOperation" +:+ post)
  ∧ (terminate_instance (mock_aws_manager (Raise (ClientError "DryRunOperation")))
       "test_instance_id" = Raise (ClientError "DryRunOperation")
     ↔ ¬ ∃ pre post, "DryRunOperation" = pre +:+ "DryRunOperation" +:+ post).
Proof.
  apply (terminate_instance_substring
           (mock_aws_manager (Raise (ClientError "DryRunOperation")))
           "test_instance_id" "DryRunOperation").
  reflexivity.
Defined.






(** The tests of the suite on [find_asg_group], evaluated. *)
Example find_asg_group_run :
  find_asg_group literal_match sample_pages "^test_pat" = Ok [named_group "test_pat_1"]
  ∧ find_asg_group literal_match sample_pages "^no_match" = Ok [].
Proof. split; vm_compute; reflexivity. Qed.

(** * Probing and waiting *)

(** A probe by a plain, closed manager: the answer is whether the instance
    has booted, and the manager is as before. *)
Lemma is_ready_plain_closed remote ip_address self :
  plain_and_closed self →
  is_ready remote ip_address self = (Ok (boots (remote ip_address)), self).
Proof.
  intros (Hplain & Hc & Hs). destruct self as [t c slot s n]. simpl in *. subst.
  unfold is_ready, is_ready_try, connect, _create_connection, sshclient_connect,
    close_connections, base_close_connections, boots. simpl.
  destruct (client_connect (remote ip_address)) as [e|]; simpl; [done|].
  destruct (remote_ls (remote ip_address)) as [exit_code|e]; simpl; done.
Qed.

Lemma is_ready_direct_witness :
  ∃ b self',
    is_ready booted "10.0.0.7" (new_manager false) = (Ok b, self')
    ∧ session_open self' = false
    ∧ _connected self' = false
    ∧ (b = true ↔ _connected (new_manager false) = false
                  ∧ client_connect (booted "10.0.0.7") = None
                  ∧ remote_ls (booted "10.0.0.7") = Ok 0).
Proof. apply (is_ready_direct booted "10.0.0.7" (new_manager false)). reflexivity. Defined.

Lemma is_ready_tunnel_up_witness :
  ∃ b self',
    is_ready booted "10.0.0.7" (new_manager true) = (Ok b, self')
    ∧ session_open self' = false
    ∧ _connected self' = false
    ∧ _ssh_tunnel self' = TunnelNone
    ∧ open_tunnels self' = open_tunnels (new_manager true)
    ∧ (b = true ↔ client_connect (booted "10.0.0.7") = None
                  ∧ remote_ls (booted "10.0.0.7") = Ok 0).
Proof.
  apply (is_ready_tunnel_up booted "10.0.0.7" (new_manager true)); reflexivity.
Defined.

(** X18. A manager that has connected refuses a second [connect] with the
    [IOError], whatever the remote side would answer, and is left as it
    was; after [close_connections] it is no longer connected. *)
Theorem connect_twice_raises out out' self self' :
  connect out self = (Ok (), self') →
  connect out' self' = (Raise (IOError "Already connected"), self')
  ∧ ∀ r self'', close_connections self' = (r, self'') → _connected self'' = false.
Proof.
  unfold connect. destruct (_connected self); [done|].
  destruct (_create_connection out self) as [[u|e] self1]; [|done].
  intros [= <-]. simpl. split; [done|].
  intros r self''. unfold close_connections, base_close_connections. simpl.
  destruct (with_tunnel self1); [|by intros [= _ <-]].
  destruct (_ssh_tunnel self1); by intros [= _ <-].
Qed.

Lemma connect_twice_raises_witness :
  connect (booted "10.0.0.8")
    {| with_tunnel := false; _connected := true; _ssh_tunnel := NoAttribute;
       session_open := true; open_tunnels := 0 |}
  = (Raise (IOError "Already connected"),
     {| with_tunnel := false; _connected := true; _ssh_tunnel := NoAttribute;
        session_open := true; open_tunnels := 0 |})
  ∧ ∀ r self'',
      close_connections
        {| with_tunnel := false; _connected := true; _ssh_tunnel := NoAttribute;
           session_open := true; open_tunnels := 0 |} = (r, self'') →
      _connected self'' = false.
Proof.
  apply (connect_twice_raises (booted "10.0.0.7") (booted "10.0.0.8") (new_manager false)).
  reflexivity.
Defined.

(** X19. With a plain manager that has no connection open,
    [are_all_instances_ready] returns [True] exactly when every instance of
    the list has booted, never raises, and leaves the manager closed as it
    found it. *)
Theorem are_all_instances_ready_plain remote (instances : list Instance) self :
  plain_and_closed self →
  are_all_instances_ready remote instances self
  = (Ok (forallb (λ i, boots (remote (private_ip_address i))) instances), self).
Proof.
  intros Hself. induction instances as [|i l IH]; [done|].
  cbn [are_all_instances_ready forallb].
  rewrite (is_ready_plain_closed _ _ _ Hself).
  destruct (boots (remote (private_ip_address i))); [exact IH|done].
Qed.

Lemma are_all_instances_ready_plain_witness :
  are_all_instances_ready booted [tied_a; tied_b] (new_manager false)
  = (Ok (forallb (λ i, boots (booted (private_ip_address i))) [tied_a; tied_b]),
     new_manager false).
Proof.
  apply (are_all_instances_ready_plain booted [tied_a; tied_b] (new_manager false)).
  repeat split.
Defined.

(** X20. The probes stop at the first instance that is not ready: what
    comes after it in the list changes neither the answer nor the state of
    the manager, whatever the class of the manager. *)
Theorem are_all_instances_ready_stops remote (before after : list Instance)
    (instance : Instance) self self' :
  are_all_instances_ready remote (before ++ [instance]) self = (Ok false, self') →
  are_all_instances_ready remote (before ++ instance :: after) self = (Ok false, self').
Proof.
  revert self. induction before as [|i l IH]; intros self.
  - cbn [app are_all_instances_ready].
    destruct (is_ready remote (private_ip_address instance) self) as [[[|]|e] self1];
      [done|done|done].
  - cbn [app are_all_instances_ready].
    destruct (is_ready remote (private_ip_address i) self) as [[[|]|e] self1];
      [apply IH|done|done].
Qed.

Lemma are_all_instances_ready_stops_witness :
  are_all_instances_ready still_booting ([] ++ tied_a :: [tied_b]) (new_manager false)
  = (Ok false, new_manager false).
Proof.
  apply (are_all_instances_ready_stops still_booting [] [tied_b] tied_a).
  reflexivity.
Defined.

(** One round of the loop with a plain, closed manager. *)
Lemma wait_loop_step dry cloud asg expected r clock instances self :
  plain_and_closed self →
  wait_loop dry cloud asg expected (S r) clock instances self
  = if instances_ready cloud expected clock instances
    then (Ok (), self, S clock)
    else match get_instances_for_asg (manager_at dry cloud (S clock)) asg with
         | Raise e => (Raise e, self, S (S clock))
         | Ok instances' =>
             match r with
             | O => (Raise SystemExit, self, S (S clock))
             | S _ => wait_loop dry cloud asg expected r (S clock) instances' self
             end
         end.
Proof.
  intros Hself. cbn [wait_loop]. unfold instances_ready.
  destruct (bool_decide (expected ≤ Z.of_nat (length instances))); cbn [andb].
  - rewrite (are_all_instances_ready_plain _ _ _ Hself).
    by destruct (forallb _ instances).
  - done.
Qed.

Lemma wait_loop_exhausted dry cloud asg expected r self :
  plain_and_closed self →
  ∀ clock instances,
    get_instances_for_asg (manager_at dry cloud clock) asg = Ok instances →
    (∀ j, (j ≤ S r)%nat →
       ∃ l, get_instances_for_asg (manager_at dry cloud (clock + j)) asg = Ok l) →
    (∀ j, (j < S r)%nat → group_ready dry cloud asg expected (clock + j) = false) →
    wait_loop dry cloud asg expected (S r) clock instances self
    = (Raise SystemExit, self, S (clock + S r)).
Proof.
  intros Hself. induction r as [|r IH]; intros clock instances Hnow Hlist Hnot.
  - rewrite (wait_loop_step _ _ _ _ _ _ _ _ Hself).
    pose proof (Hnot 0%nat ltac:(lia)) as H0. unfold group_ready in H0.
    rewrite Nat.add_0_r, Hnow in H0. rewrite H0.
    destruct (Hlist 1%nat ltac:(lia)) as [l Hl].
    rewrite Nat.add_1_r in Hl. rewrite Hl. by rewrite Nat.add_1_r.
  - rewrite (wait_loop_step _ _ _ _ _ _ _ _ Hself).
    pose proof (Hnot 0%nat ltac:(lia)) as H0. unfold group_ready in H0.
    rewrite Nat.add_0_r, Hnow in H0. rewrite H0.
    destruct (Hlist 1%nat ltac:(lia)) as [l Hl].
    rewrite Nat.add_1_r in Hl. rewrite Hl.
    rewrite (IH (S clock) l Hl).
    + f_equal. lia.
    + intros j Hj. destruct (Hlist (S j) ltac:(lia)) as [l' Hl'].
      exists l'. by replace (S clock + j)%nat with (clock + S j)%nat by lia.
    + intros j Hj. replace (S clock + j)%nat with (clock + S j)%nat by lia.
      apply Hnot. lia.
Qed.

Lemma wait_loop_ready dry cloud asg expected self k :
  plain_and_closed self →
  ∀ r clock instances,
    (k < r)%nat →
    get_instances_for_asg (manager_at dry cloud clock) asg = Ok instances →
    (∀ j, (j ≤ k)%nat →
       ∃ l, get_instances_for_asg (manager_at dry cloud (clock + j)) asg = Ok l) →
    (∀ j, (j < k)%nat → group_ready dry cloud asg expected (clock + j) = false) →
    group_ready dry cloud asg expected (clock + k) = true →
    wait_loop dry cloud asg expected r clock instances self
    = (Ok (), self, S (clock + k)).
Proof.
  intros Hself. induction k as [|k IH]; intros r clock instances Hk Hnow Hlist Hnot Hready.
  - destruct r as [|r]; [lia|].
    rewrite (wait_loop_step _ _ _ _ _ _ _ _ Hself).
    unfold group_ready in Hready. rewrite Nat.add_0_r, Hnow in Hready.
    by rewrite Hready, Nat.add_0_r.
  - destruct r as [|r]; [lia|].
    rewrite (wait_loop_step _ _ _ _ _ _ _ _ Hself).
    pose proof (Hnot 0%nat ltac:(lia)) as H0. unfold group_ready in H0.
    rewrite Nat.add_0_r, Hnow in H0. rewrite H0.
    destruct (Hlist 1%nat ltac:(lia)) as [l Hl].
    rewrite Nat.add_1_r in Hl. rewrite Hl.
    destruct r as [|r]; [lia|].
    rewrite (IH (S r) (S clock) l); [f_equal; lia|lia|done| | |].
    + intros j Hj. destruct (Hlist (S j) ltac:(lia)) as [l' Hl'].
      exists l'. by replace (S clock + j)%nat with (clock + S j)%nat by lia.
    + intros j Hj. replace (S clock + j)%nat with (clock + S j)%nat by lia.
      apply Hnot. lia.
    + by replace (S clock + k)%nat with (clock + S k)%nat by lia.
Qed.

(** X21. With [max_wait_attempts] zero or negative, [wait_for_instances]
    lists the instances once and returns at once: no instance is counted
    or probed, whatever the state of the group. *)
Theorem wait_for_instances_no_attempts dry cloud max asg expected clock self instances :
  max ≤ 0 →
  get_instances_for_asg (manager_at dry cloud clock) asg = Ok instances →
  wait_for_instances dry cloud max asg expected clock self = (Ok (), self, S clock).
Proof.
  intros Hmax Hnow. unfold wait_for_instances. rewrite Hnow.
  by replace (Z.to_nat max) with 0%nat by lia.
Qed.

(** X22. With a plain, closed manager and a positive [max_wait_attempts],
    when no listing among the first [max_wait_attempts] shows the group
    full and booted, [wait_for_instances] ends with [sys.exit(1)] after
    [max_wait_attempts + 1] listings: the last listing is fetched and never
    checked. *)
Theorem wait_for_instances_exhausted dry cloud max asg expected clock self :
  plain_and_closed self →
  0 < max →
  (∀ j, (j ≤ Z.to_nat max)%nat →
     ∃ l, get_instances_for_asg (manager_at dry cloud (clock + j)) asg = Ok l) →
  (∀ j, (j < Z.to_nat max)%nat → group_ready dry cloud asg expected (clock + j) = false) →
  wait_for_instances dry cloud max asg expected clock self
  = (Raise SystemExit, self, S (clock + Z.to_nat max)).
Proof.
  intros Hself Hmax Hlist Hnot. unfold wait_for_instances.
  destruct (Hlist 0%nat ltac:(lia)) as [l Hl]. rewrite Nat.add_0_r in Hl. rewrite Hl.
  destruct (Z.to_nat max) as [|r] eqn:Hr; [lia|].
  by apply wait_loop_exhausted.
Qed.

(** X23. With a plain, closed manager, when listing number [k], with
    [k < max_wait_attempts], is the first that shows the group full and
    booted, [wait_for_instances] returns normally after [k + 1] listings,
    and leaves the manager closed. *)
Theorem wait_for_instances_ready dry cloud max asg expected clock self k :
  plain_and_closed self →
  (k < Z.to_nat max)%nat →
  (∀ j, (j ≤ k)%nat →
     ∃ l, get_instances_for_asg (manager_at dry cloud (clock + j)) asg = Ok l) →
  (∀ j, (j < k)%nat → group_ready dry cloud asg expected (clock + j) = false) →
  group_ready dry cloud asg expected (clock + k) = true →
  wait_for_instances dry cloud max asg expected clock self
  = (Ok (), self, S (clock + k)).
Proof.
  intros Hself Hk Hlist Hnot Hready. unfold wait_for_instances.
  destruct (Hlist 0%nat ltac:(lia)) as [l Hl]. rewrite Nat.add_0_r in Hl. rewrite Hl.
  by apply wait_loop_ready.
Qed.

Lemma wait_for_instances_no_attempts_witness :
  wait_for_instances false short_cloud 0 test_asg 3 0 (new_manager true)
  = (Ok (), new_manager true, 1%nat).
Proof.
  apply (wait_for_instances_no_attempts false short_cloud 0 test_asg 3 0
           (new_manager true) [tied_a]).
  - lia.
  - vm_compute. reflexivity.
Defined.

Lemma wait_for_instances_exhausted_witness :
  wait_for_instances false short_cloud 2 test_asg 3 0 (new_manager false)
  = (Raise SystemExit, new_manager false, S (0 + Z.to_nat 2)).
Proof.
  apply (wait_for_instances_exhausted false short_cloud 2 test_asg 3 0 (new_manager false)).
  - repeat split.
  - lia.
  - intros j _. exists [tied_a]. vm_compute. reflexivity.
  - intros j _. vm_compute. reflexivity.
Defined.

Lemma wait_for_instances_ready_witness :
  wait_for_instances false s7_cloud 40 test_asg 3 0 (new_manager false)
  = (Ok (), new_manager false, S (0 + 3)).
Proof.
  apply (wait_for_instances_ready false s7_cloud 40 test_asg 3 0 (new_manager false) 3).
  - repeat split.
  - vm_compute. lia.
  - intros j _. eexists. vm_compute. reflexivity.
  - intros [|[|[|j]]] Hj; [vm_compute; reflexivity..|lia].
  - vm_compute. reflexivity.
Defined.

(** Scenario S7 of the specification, evaluated: four listings, then the
    controller goes on. *)
Example wait_then_ready_run :
  wait_for_instances false s7_cloud 40 test_asg 3 0 (new_manager false)
  = (Ok (), new_manager false, 4%nat).
Proof. vm_compute. reflexivity. Qed.

(** * The upgrading loop *)

Lemma get_oldest_instance_minimal (instances : list Instance) :
  instances ≠ [] →
  ∃ victim, get_oldest_instance instances = Ok victim
    ∧ victim ∈ instances
    ∧ ∀ x, x ∈ instances → launch_time victim ≤ launch_time x.
Proof.
  intros Hne. unfold get_oldest_instance.
  destruct (sorted_by Z.leb launch_time instances) as [|victim rest] eqn:E.
  { by apply sorted_by_nil_inv in E. }
  apply (sorted_by_head Z.leb launch_time) in E as (pre & post & -> & Hpre & Hpost);
    [|intros a b; lia|intros a b c; lia].
  exists victim. split; [done|]. split.
  - apply elem_of_app. right. apply list_elem_of_here.
  - intros x [Hx|[->|Hx]%elem_of_cons]%elem_of_app.
    + specialize (Hpre x Hx). lia.
    + lia.
    + specialize (Hpost x Hx). lia.
Qed.

Lemma instances_with_diffs_complete aws config asg_instances candidates :
  instances_with_diffs aws config asg_instances = Ok candidates →
  (∀ x, x ∈ asg_instances → ∃ diffs, compare_instance_to_config aws x config = Ok diffs)
  ∧ (∀ x, x ∈ asg_instances → needs_upgrade aws config x → x ∈ candidates).
Proof.
  revert candidates. induction asg_instances as [|i l IH]; intros candidates.
  - intros _. split; intros x Hx; by apply elem_of_nil in Hx.
  - cbn [instances_with_diffs].
    destruct (compare_instance_to_config aws i config) as [diffs|] eqn:Hd; [|done].
    cbn [mbind result_bind].
    destruct (instances_with_diffs aws config l) as [added|]; [|done].
    cbn [mbind result_bind]. intros [= <-].
    destruct (IH added eq_refl) as [Hall Hin]. split.
    + intros x [->|Hx]%elem_of_cons; [by eexists|auto].
    + intros x [->|Hx]%elem_of_cons (diffs' & Hd' & Hne).
      * rewrite Hd in Hd'. injection Hd' as <-.
        rewrite bool_decide_eq_true_2 by (by destruct diffs).
        apply list_elem_of_here.
      * assert (x ∈ added) by (apply Hin; [done|by exists diffs']).
        destruct (bool_decide _); [by apply list_elem_of_further|done].
Qed.

(** X24. When [list(set)] enumerates exactly the elements of the set,
    [get_instances_to_upgrade] returns, if it returns, exactly the listed
    instances of the group whose diff against the configuration is not
    empty; and it returns only if the comparison of every listed instance
    succeeded. *)
Theorem get_instances_to_upgrade_spec (list_of_set : list Instance → list Instance)
    aws asg config (candidates : list Instance) :
  (∀ l x, x ∈ list_of_set l ↔ x ∈ l) →
  get_instances_to_upgrade list_of_set aws asg config = Ok candidates →
  ∃ listing,
    get_instances_for_asg aws asg = Ok listing
    ∧ (∀ x, x ∈ listing → ∃ diffs, compare_instance_to_config aws x config = Ok diffs)
    ∧ (∀ x, x ∈ candidates ↔ x ∈ listing ∧ needs_upgrade aws config x).
Proof.
  intros Hset. unfold get_instances_to_upgrade.
  destruct (get_instances_for_asg aws asg) as [listing|]; [|done].
  cbn [mbind result_bind].
  destruct (instances_with_diffs aws config listing) as [found|] eqn:Hfound; [|done].
  cbn [mbind result_bind]. intros [= <-].
  destruct (instances_with_diffs_complete _ _ _ _ Hfound) as [Hall Hin].
  exists listing. split; [done|]. split; [done|].
  intros x. rewrite Hset. split.
  - intros Hx. by apply (instances_with_diffs_sound _ _ _ _ Hfound).
  - intros [? ?]. by apply Hin.
Qed.

(** A round that terminates an instance terminates the oldest of the
    listed instances that differ from the configuration. *)
Lemma upgrade_round_kills_oldest_drifted (list_of_set : list Instance → list Instance)
    dry cloud max asg config expected clock self id self' clock' :
  (∀ l x, x ∈ list_of_set l ↔ x ∈ l) →
  upgrade_round list_of_set dry cloud max asg config expected clock self
    = (Ok (Killed id), self', clock') →
  oldest_drifted dry cloud asg config id.
Proof.
  intros Hset. unfold upgrade_round.
  destruct (wait_for_instances dry cloud max asg expected clock self)
    as [[[u|e] self1] clock1]; [|done].
  destruct (get_instances_to_upgrade list_of_set (manager_at dry cloud clock1) asg config)
    as [candidates|] eqn:Hcand; [|done].
  destruct (bool_decide (length candidates = 0%nat)) eqn:Hlen; [done|].
  apply bool_decide_eq_false in Hlen.
  destruct (get_instances_to_upgrade_spec _ _ _ _ _ Hset Hcand)
    as (listing & Hlisting & _ & Hmem).
  destruct (get_oldest_instance_minimal candidates)
    as (victim & Hvictim & Hin & Hmin); [by destruct candidates|].
  rewrite Hvictim.
  destruct (terminate_instance _ _) as [u'|]; [|done].
  intros [= <- _ _].
  exists clock1, listing, victim.
  apply Hmem in Hin as [Hin Hneeds].
  repeat (split; [done|]).
  intros x Hx Hxneeds. apply Hmin. apply Hmem. done.
Qed.

Lemma upgrade_loop_kills_oldest_drifted (list_of_set : list Instance → list Instance)
    dry cloud max asg config expected :
  (∀ l x, x ∈ list_of_set l ↔ x ∈ l) →
  ∀ rounds clock self killed,
    Forall (oldest_drifted dry cloud asg config) killed →
    Forall (oldest_drifted dry cloud asg config)
      (killed_of (upgrade_loop rounds list_of_set dry cloud max asg config expected
                    clock self killed)).
Proof.
  intros Hset. induction rounds as [|rounds IH]; intros clock self killed Hkilled; [done|].
  cbn [upgrade_loop].
  destruct (upgrade_round list_of_set dry cloud max asg config expected clock self)
    as [[[[|id]|e] self'] clock'] eqn:Hround; [done| |done].
  apply IH. apply Forall_app. split; [done|].
  apply Forall_singleton. by eapply upgrade_round_kills_oldest_drifted.
Qed.

(** X25. When [list(set)] enumerates exactly the elements of the set, every
    instance id that [perform_rolling_upgrade_where_needed] passes to
    [terminate_instance] and sees terminated, in any number of rounds, is
    the id of an instance of the selected group that some listing showed,
    whose diff against the group's launch configuration was not empty then,
    and than which no differing instance of that listing was older. *)
Theorem only_oldest_drifted_instances_are_killed rounds re_match
    (pages : list (list AutoScalingGroup)) describe
    (list_of_set : list Instance → list Instance) dry cloud max slug self id :
  (∀ l x, x ∈ list_of_set l ↔ x ∈ l) →
  id ∈ killed_of (perform_rolling_upgrade_where_needed rounds re_match pages describe
                    list_of_set dry cloud max slug self) →
  ∃ asg config,
    _get_single_asg re_match pages slug = Ok asg
    ∧ get_launch_config_for_asg describe asg = Ok config
    ∧ oldest_drifted dry cloud (asg_entries asg) config id.
Proof.
  intros Hset. unfold perform_rolling_upgrade_where_needed.
  destruct (_get_single_asg re_match pages slug) as [asg|] eqn:Hasg;
    [|by intros ?%elem_of_nil].
  destruct (get_launch_config_for_asg describe asg) as [config|] eqn:Hconfig;
    [|by intros ?%elem_of_nil].
  destruct (get_expected_num_of_instances asg) as [expected|];
    [|by intros ?%elem_of_nil].
  intros Hid. exists asg, config. split; [done|]. split; [done|].
  pose proof (upgrade_loop_kills_oldest_drifted list_of_set dry cloud max
                (asg_entries asg) config expected Hset rounds 0%nat self []
                (Forall_nil_2 _)) as Hall.
  rewrite Forall_forall in Hall. by apply Hall.
Qed.

Lemma wait_loop_plain_self dry cloud asg expected self :
  plain_and_closed self →
  ∀ r clock instances,
    (wait_loop dry cloud asg expected r clock instances self).1.2 = self.
Proof.
  intros Hself. induction r as [|r IH]; intros clock instances; [done|].
  rewrite (wait_loop_step _ _ _ _ _ _ _ _ Hself).
  destruct (instances_ready cloud expected clock instances); [done|].
  destruct (get_instances_for_asg _ asg) as [l|]; [|done].
  destruct r as [|r]; [done|]. apply IH.
Qed.

Lemma wait_loop_static dry c remote asg expected :
  ∀ r clock clock' instances self,
    (wait_loop dry (static_cloud c remote) asg expected r clock instances self).1
    = (wait_loop dry (static_cloud c remote) asg expected r clock' instances self).1.
Proof.
  induction r as [|r IH]; intros clock clock' instances self; [done|].
  cbn [wait_loop].
  change (remote_at (static_cloud c remote) clock) with remote.
  change (remote_at (static_cloud c remote) clock') with remote.
  change (manager_at dry (static_cloud c remote) (S clock))
    with (manager_at dry (static_cloud c remote) (S clock')).
  destruct (if bool_decide (expected ≤ Z.of_nat (length instances))
            then are_all_instances_ready remote instances self
            else (Ok false, self)) as [[[|]|e] self1]; [done| |done].
  destruct (get_instances_for_asg _ asg) as [l|]; [|done].
  destruct r as [|r]; [done|]. apply IH.
Qed.

(** In a world that does not change, a round with a plain, closed manager
    ends the same way whenever it is started, and returns the manager as
    it was. *)
Lemma upgrade_round_static (list_of_set : list Instance → list Instance)
    dry c remote max asg config expected self :
  plain_and_closed self →
  ∀ clock clock',
    (upgrade_round list_of_set dry (static_cloud c remote) max asg config expected
       clock self).1
    = ((upgrade_round list_of_set dry (static_cloud c remote) max asg config expected
          clock' self).1.1, self).
Proof.
  intros Hself clock clock'. unfold upgrade_round, wait_for_instances.
  change (manager_at dry (static_cloud c remote) clock)
    with (manager_at dry (static_cloud c remote) clock').
  destruct (get_instances_for_asg _ asg) as [instances|]; [|done].
  pose proof (wait_loop_static dry c remote asg expected (Z.to_nat max) clock clock'
                instances self) as Hsame.
  pose proof (wait_loop_plain_self dry (static_cloud c remote) asg expected self Hself
                (Z.to_nat max) clock instances) as Hkeep.
  destruct (wait_loop dry (static_cloud c remote) asg expected (Z.to_nat max) clock
              instances self) as [[r s] k].
  destruct (wait_loop dry (static_cloud c remote) asg expected (Z.to_nat max) clock'
              instances self) as [[r' s'] k'].
  simpl in Hsame, Hkeep. injection Hsame as <- <-. subst s.
  destruct r as [u|e]; [|done].
  change (manager_at dry (static_cloud c remote) k)
    with (manager_at dry (static_cloud c remote) k').
  destruct (get_instances_to_upgrade _ _ asg config) as [candidates|]; [|done].
  destruct (bool_decide _); [done|].
  destruct (get_oldest_instance candidates) as [victim|]; [|done].
  by destruct (terminate_instance _ _).
Qed.

Lemma upgrade_loop_static (list_of_set : list Instance → list Instance)
    dry c remote max asg config expected self id :
  plain_and_closed self →
  (upgrade_round list_of_set dry (static_cloud c remote) max asg config expected
     0 self).1.1 = Ok (Killed id) →
  ∀ rounds clock killed,
    upgrade_loop rounds list_of_set dry (static_cloud c remote) max asg config expected
      clock self killed
    = Running (killed ++ replicate rounds id).
Proof.
  intros Hself Hkill. induction rounds as [|rounds IH]; intros clock killed.
  { by rewrite app_nil_r. }
  cbn [upgrade_loop].
  pose proof (upgrade_round_static list_of_set dry c remote max asg config expected self
                Hself clock 0%nat) as Hround.
  rewrite Hkill in Hround.
  destruct (upgrade_round list_of_set dry (static_cloud c remote) max asg config expected
              clock self) as [[out self'] clock'].
  simpl in Hround. injection Hround as -> ->.
  rewrite IH. by rewrite <- app_assoc.
Qed.

(** X26. In a world that does not change (as under [--dry_run], where
    nothing is terminated), with a plain, closed manager: if the first
    round terminates an instance, then every round does, with the same id,
    and [perform_rolling_upgrade_where_needed] never leaves its loop. *)
Theorem static_world_never_converges re_match (pages : list (list AutoScalingGroup))
    describe (list_of_set : list Instance → list Instance) dry c remote max slug self
    asg config expected id self' clock' :
  plain_and_closed self →
  _get_single_asg re_match pages slug = Ok asg →
  get_launch_config_for_asg describe asg = Ok config →
  get_expected_num_of_instances asg = Ok expected →
  upgrade_round list_of_set dry (static_cloud c remote) max (asg_entries asg) config
    expected 0 self = (Ok (Killed id), self', clock') →
  ∀ rounds,
    perform_rolling_upgrade_where_needed rounds re_match pages describe list_of_set dry
      (static_cloud c remote) max slug self
    = Running (replicate rounds id).
Proof.
  intros Hself Hasg Hconfig Hexpected Hround rounds.
  unfold perform_rolling_upgrade_where_needed.
  rewrite Hasg, Hconfig, Hexpected.
  rewrite (upgrade_loop_static list_of_set dry c remote max (asg_entries asg) config
             expected self id Hself); [done|].
  by rewrite Hround.
Qed.


Lemma get_instances_to_upgrade_spec_witness :
  ∃ listing,
    get_instances_for_asg (manager_at true drifted_cloud 0) test_asg = Ok listing
    ∧ (∀ x, x ∈ listing →
         ∃ diffs, compare_instance_to_config (manager_at true drifted_cloud 0) x
                    sample_config = Ok diffs)
    ∧ (∀ x, x ∈ [sample_instance]
            ↔ x ∈ listing ∧ needs_upgrade (manager_at true drifted_cloud 0) sample_config x).
Proof.
  apply (get_instances_to_upgrade_spec remove_dups (manager_at true drifted_cloud 0)
           test_asg sample_config [sample_instance]).
  - intros l x. apply elem_of_remove_dups.
  - vm_compute. reflexivity.
Defined.

Lemma only_oldest_drifted_instances_are_killed_witness :
  ∃ asg config,
    _get_single_asg literal_match [[upgrade_group]] "test" = Ok asg
    ∧ get_launch_config_for_asg describe_sample_config asg = Ok config
    ∧ oldest_drifted true drifted_cloud (asg_entries asg) config "i-0a1".
Proof.
  apply (only_oldest_drifted_instances_are_killed 1 literal_match [[upgrade_group]]
           describe_sample_config remove_dups true drifted_cloud 40 "test"
           (new_manager false) "i-0a1").
  - intros l x. apply elem_of_remove_dups.
  - vm_compute. apply list_elem_of_here.
Defined.

Lemma static_world_never_converges_witness :
  perform_rolling_upgrade_where_needed 3 literal_match [[upgrade_group]]
    describe_sample_config remove_dups true
    (static_cloud (listing_clients [sample_instance]) booted) 40 "test"
    (new_manager false)
  = Running (replicate 3 "i-0a1").
Proof.
  refine (static_world_never_converges literal_match [[upgrade_group]]
            describe_sample_config remove_dups true (listing_clients [sample_instance])
            booted 40 "test" (new_manager false) upgrade_group sample_config 1 "i-0a1"
            (new_manager false) 2%nat _ _ _ _ _ 3%nat).
  - repeat split.
  - vm_compute. reflexivity.
  - vm_compute. reflexivity.
  - reflexivity.
  - vm_compute. reflexivity.
Defined.


(** Three rounds of a dry run on a group with one drifted instance. *)
Example dry_run_rounds :
  perform_rolling_upgrade_where_needed 3 literal_match [[upgrade_group]]
    describe_sample_config remove_dups true drifted_cloud 40 "test" (new_manager false)
  = Running ["i-0a1"; "i-0a1"; "i-0a1"].
Proof. vm_compute. reflexivity. Qed.

(** X28. With the bastion tunnel, when the group is full and the forwarder
    for its first instance cannot be started while [_ssh_tunnel] holds no
    forwarder, [wait_for_instances] does not poll again: the
    [AttributeError] of the probe leaves it at the first round. *)
Theorem wait_for_instances_tunnel_failure dry cloud max asg expected clock self
    (first : Instance) (others : list Instance) e :
  with_tunnel self = true →
  _connected self = false →
  _ssh_tunnel self ≠ TunnelObject →
  0 < max →
  get_instances_for_asg (manager_at dry cloud clock) asg = Ok (first :: others) →
  expected ≤ Z.of_nat (length (first :: others)) →
  tunnel_start (remote_at cloud clock (private_ip_address first)) = Some e →
  ∃ msg self',
    wait_for_instances dry cloud max asg expected clock self
    = (Raise (AttributeError msg), self', S clock).
Proof.
  intros Htunnel Hc Hslot Hmax Hnow Hfull Hfail. unfold wait_for_instances.
  rewrite Hnow. destruct (Z.to_nat max) as [|r] eqn:Hr; [lia|].
  cbn [wait_loop]. rewrite bool_decide_eq_true_2 by done.
  cbn [are_all_instances_ready].
  unfold is_ready, is_ready_try, connect, _create_connection,
    close_connections, base_close_connections.
  rewrite Htunnel, Hc, Hfail. simpl. rewrite Htunnel.
  destruct (_ssh_tunnel self); [by do 2 eexists..|done].
Qed.

Lemma wait_for_instances_tunnel_failure_witness :
  ∃ msg self',
    wait_for_instances false
      {| clients_at := λ _, listing_clients [tied_a]; remote_at := λ _, unreachable_bastion |}
      40 test_asg 1 0 (new_manager true)
    = (Raise (AttributeError msg), self', 1%nat).
Proof.
  apply (wait_for_instances_tunnel_failure false
           {| clients_at := λ _, listing_clients [tied_a];
              remote_at := λ _, unreachable_bastion |}
           40 test_asg 1 0 (new_manager true) tied_a []
           (OtherError "BaseSSHTunnelForwarderError")).
  - reflexivity.
  - reflexivity.
  - discriminate.
  - lia.
  - vm_compute. reflexivity.
  - simpl. lia.
  - reflexivity.
Defined.

